(** * query-bot: the shared plugin services, embedded and verified

    A shallow embedding of the Python services under
    [src/plugins/common]: the one-time token service, the ban list,
    the generic game-state service, the chat history / cooldown
    tracker and the command dispatch wrapper of [plugin_base.py].

    Conventions of the embedding.
    - A Python [int] is a [Z]; a [str] is a [string] holding its UTF-8
      bytes (two [str] are equal iff their encodings are, and a [str]
      is ASCII iff every byte is below 128).
    - [time.time()] is an input of every operation that reads the
      clock.  A [float] is the rational it denotes; comparisons are
      exact, and every sum or difference the code computes goes
      through the rounding [fl] of the platform's doubles, an
      argument of the operations that do float arithmetic.
    - Whatever else the environment decides (random bytes, the outcome
      of a file write, the content of the ban file) is an explicit
      argument as well.
    - A method that mutates [self] returns the new service state next
      to its result; an exception is a value of [py]. *)

From Stdlib Require Import ZArith QArith Qpower Lqa Lia List Bool Ascii String Strings.Byte.
From stdpp Require Import base option list gmap sets strings.

Local Open Scope string_scope.

(** ** Python values shared by all services *)

Module Py.

(** The exception classes the modelled code can meet.  The last two
    derive from [BaseException] only: [asyncio.CancelledError], raised
    at an [await] of a cancelled task, and the others of that kind
    ([KeyboardInterrupt], [SystemExit]); all the rest derive from
    [Exception]. *)
Inductive exn : Type :=
| TypeError (msg : string)
| ValueError (msg : string)
| RuntimeError (msg : string)
| IndexError (msg : string)
| FinishedException
| OtherException (msg : string)
| CancelledError
| OtherBaseException (msg : string).

(** [str(e)] as used by the f-strings that format an exception. *)
Definition exn_str (e : exn) : string :=
  match e with
  | TypeError m | ValueError m | RuntimeError m | IndexError m
  | OtherException m | OtherBaseException m => m
  | FinishedException | CancelledError => ""
  end.

(** [isinstance(e, FinishedException)]. *)
Definition is_finished (e : exn) : bool :=
  match e with
  | FinishedException => true
  | _ => false
  end.

(** [isinstance(e, Exception)]: what an [except Exception] clause
    catches. *)
Definition is_exception (e : exn) : bool :=
  match e with
  | CancelledError | OtherBaseException _ => false
  | _ => true
  end.

(** Outcome of a call: a returned value or a raised exception. *)
Inductive py (A : Type) : Type :=
| Ret (a : A)
| Raise (e : exn).
Arguments Ret {A} a.
Arguments Raise {A} e.

(** [str.isascii()]: every byte of the encoding is below 128. *)
Definition is_ascii_char (c : ascii) : bool := (N_of_ascii c <? 128)%N.

Definition is_ascii (s : string) : bool :=
  forallb is_ascii_char (list_ascii_of_string s).

(** [secrets.compare_digest] (that is [hmac.compare_digest]) on two
    [str] arguments: equality, in time independent of the position of
    the first difference, but only for ASCII strings; with a
    non-ASCII argument it raises [TypeError]. *)
Definition compare_digest (a b : string) : py bool :=
  if is_ascii a && is_ascii b
  then Ret (bool_decide (a = b))
  else Raise (TypeError "comparing strings with non-ASCII characters is not supported").

(** [x or d] on an optional string: [None] and the empty string are falsy. *)
Definition or_str (x : option string) (d : string) : string :=
  match x with
  | Some s => if bool_decide (s = "") then d else s
  | None => d
  end.

(** A list slice [l[start:]] with Python's treatment of a negative
    start (counted from the end) and of a start out of range
    (clamped). *)
Definition slice_from {A} (start : Z) (l : list A) : list A :=
  let n := Z.of_nat (length l) in
  let i := if (start <? 0)%Z then Z.max 0 (start + n) else Z.min start n in
  drop (Z.to_nat i) l.

(** The base64 alphabet of [base64.urlsafe_b64encode]. *)
Definition urlsafe_alphabet : string :=
  "ABCDEFGHIJKLMNOPQRSTUVWXYZabcdefghijklmnopqrstuvwxyz0123456789-_".

Definition b64_digit (n : N) : ascii :=
  default "A"%char (list_ascii_of_string urlsafe_alphabet !! N.to_nat n).

(** [urlsafe_b64encode(bs).rstrip(b'=')]: three bytes give four
    digits, a tail of one byte two digits, a tail of two bytes three. *)
Fixpoint urlsafe_b64encode_nopad (bs : list byte) : list ascii :=
  match bs with
  | [] => []
  | [a] =>
      let a := Byte.to_N a in
      [b64_digit (N.shiftr a 2); b64_digit (N.shiftl (N.land a 3) 4)]
  | [a; b] =>
      let a := Byte.to_N a in
      let b := Byte.to_N b in
      [b64_digit (N.shiftr a 2);
       b64_digit (N.lor (N.shiftl (N.land a 3) 4) (N.shiftr b 4));
       b64_digit (N.shiftl (N.land b 15) 2)]
  | a :: b :: c :: rest =>
      let a := Byte.to_N a in
      let b := Byte.to_N b in
      let c := Byte.to_N c in
      b64_digit (N.shiftr a 2)
      :: b64_digit (N.lor (N.shiftl (N.land a 3) 4) (N.shiftr b 4))
      :: b64_digit (N.lor (N.shiftl (N.land b 15) 2) (N.shiftr c 6))
      :: b64_digit (N.land c 63)
      :: urlsafe_b64encode_nopad rest
  end.

(** [secrets.token_urlsafe(nbytes)]; [urandom n] is what the system's
    random source answers when asked for [n] bytes. *)
Definition token_urlsafe (urandom : nat -> list byte) (nbytes : nat) : string :=
  string_of_list_ascii (urlsafe_b64encode_nopad (urandom nbytes)).

(** [a > b] on clock readings. *)
Definition Qgtb (a b : Q) : bool := negb (Qle_bool a b).

(** [a >= b] on clock readings. *)
Definition Qgeb (a b : Q) : bool := Qle_bool b a.

(** *** Doubles

    What the operations that compute with floats assume of the
    rounding [fl] they are given, all of it true of IEEE 754 binary64
    with round-to-nearest on finite values: rounding is monotone,
    leaves a double as it is, represents the integers up to 2^53
    exactly, (gradual underflow) never takes the difference of two
    distinct doubles to zero, and subtracts two doubles within a
    factor of two of each other exactly (Sterbenz). *)
Record ieee_rounding (fl : Q -> Q) : Prop := {
  fl_monotone : forall x y, (x <= y)%Q -> (fl x <= fl y)%Q;
  fl_idempotent : forall x, (fl (fl x) == fl x)%Q;
  fl_integer : forall z : Z,
    (Z.abs z <= 2 ^ 53)%Z -> (fl (inject_Z z) == inject_Z z)%Q;
  fl_difference : forall x y,
    (fl x == x)%Q -> (fl y == y)%Q -> (fl (x - y) == 0)%Q -> (x == y)%Q;
  fl_sterbenz : forall x y,
    (fl x == x)%Q -> (fl y == y)%Q -> (y <= x)%Q -> (x <= 2 * y)%Q ->
    (fl (x - y) == x - y)%Q
}.

(** The integer nearest to [n / d], ties to the even one. *)
Definition round_half_even (n : Z) (d : positive) : Z :=
  let q := (n / Z.pos d)%Z in
  let r := (n mod Z.pos d)%Z in
  match (2 * r ?= Z.pos d)%Z with
  | Lt => q
  | Gt => (q + 1)%Z
  | Eq => if Z.even q then q else (q + 1)%Z
  end.

(** The binary exponent of a positive rational [n / d]: the [k] with
    [2^k <= n / d < 2^(k+1)]. *)
Definition binary_exponent (n d : positive) : Z :=
  let k := (Z.log2 (Z.pos n) - Z.log2 (Z.pos d))%Z in
  let below :=
    if (0 <=? k)%Z then (Z.pos d * 2 ^ k <=? Z.pos n)%Z
    else (Z.pos d <=? Z.pos n * 2 ^ (- k))%Z in
  if below then k else (k - 1)%Z.

(** The double nearest to a positive rational [n / d]: 53 significant
    bits, exponent not below that of the subnormals, ties to even.
    (Overflow to infinity is left out: no reading of a clock is near
    it.) *)
Definition round_double_pos (n d : positive) : Q :=
  let e := Z.max (binary_exponent n d - 52) (-1074) in
  if (0 <=? e)%Z
  then
    match (2 ^ e)%Z with
    | Z.pos p => inject_Z (round_half_even (Z.pos n) (d * p) * Z.pos p)
    | _ => 0%Q
    end
  else
    match (2 ^ (- e))%Z with
    | Z.pos p => Qmake (round_half_even (Z.pos n * Z.pos p) d) p
    | _ => 0%Q
    end.

(** Round-to-nearest on binary64, the rounding of CPython's [float]. *)
Definition round_double (x : Q) : Q :=
  match Qnum x with
  | Z0 => 0%Q
  | Z.pos n => round_double_pos n (Qden x)
  | Z.neg n => (- round_double_pos n (Qden x))%Q
  end.

(** An integer nearest to a rational, the even one of the two at a
    tie. *)
Definition nearest_even (q : Q) (m : Z) : Prop :=
  (inject_Z m - (1 # 2) <= q)%Q /\ (q <= inject_Z m + (1 # 2))%Q /\
  ((q == inject_Z m - (1 # 2))%Q \/ (q == inject_Z m + (1 # 2))%Q -> Z.even m = true).

(** [r] is the double nearest to the positive [x]: a multiple [m] of
    [2^e], for the exponent [e] that gives [x] 53 significant bits
    (or the least exponent there is), with [m] nearest to
    [x / 2^e]. *)
Definition rounds_to (x r : Q) : Prop :=
  exists k m : Z,
    (2 ^ k <= x)%Q /\ (x < 2 ^ (k + 1))%Q /\
    nearest_even (x * 2 ^ (- Z.max (k - 52) (-1074)))%Q m /\
    (r == inject_Z m * 2 ^ Z.max (k - 52) (-1074))%Q.

(** The doubles: the multiples of a power of two, not below the
    least one, by an integer of at most 53 bits. *)
Definition is_double (v : Q) : Prop :=
  exists M E : Z, (Z.abs M <= 2 ^ 53)%Z /\ (-1074 <= E)%Z /\ (v == inject_Z M * 2 ^ E)%Q.

(** [int(x)] on a float: truncation toward zero. *)
Definition int_of (x : Q) : Z := Z.quot (Qnum x) (Zpos (Qden x)).

(** [max(0, x)] for the integer [0] and a float [x]: the first
    argument is kept unless the second is greater. *)
Definition max0 (x : Q) : Q := if Qgtb x 0 then x else 0%Q.

(** [l[i]] on a list: a negative index counts from the end, an index
    out of range raises [IndexError]. *)
Definition list_index {A} (l : list A) (i : Z) : py A :=
  let n := Z.of_nat (length l) in
  let j := if (i <? 0)%Z then (i + n)%Z else i in
  match (if (j <? 0)%Z then None else l !! Z.to_nat j) with
  | Some x => Ret x
  | None => Raise (IndexError "list index out of range")
  end.

End Py.

(** ** [base.Result]: success or failure of an operation *)

Module Result.

Record t (A : Type) : Type := mk {
  is_success : bool;
  value : option A;
  error : option string
}.
Arguments mk {A}.
Arguments is_success {A}.
Arguments value {A}.
Arguments error {A}.

Definition success {A} (v : A) : t A := mk true (Some v) None.

Definition fail {A} (e : string) : t A := mk false None (Some e).

Definition is_failure {A} (r : t A) : bool := negb (is_success r).

End Result.

(** ** [services/token.py]: one-time tokens *)

Module Token.
Import Py.

Record TokenInfo : Type := {
  token : string;
  expire_time : Q;
  used : bool
}.

Definition TOKEN_EXPIRE_SECONDS : Z := 300.

Definition TOKEN_BYTES : nat := 8.

(** [self._tokens]: user id to token record. *)
Abbreviation tokens := (gmap Z TokenInfo).

(** [generate_token]: [urandom] is the random source read by
    [secrets.token_urlsafe], [now] what [time.time()] returns; the
    expiry time is the float sum, rounded by [fl]. *)
Definition generate_token (fl : Q -> Q) (urandom : nat -> list byte) (now : Q)
    (user_id : Z) (s : tokens) : string * tokens :=
  let s := if bool_decide (is_Some (s !! user_id)) then delete user_id s else s in
  let token := token_urlsafe urandom TOKEN_BYTES in
  let expire_time := fl (now + inject_Z TOKEN_EXPIRE_SECONDS)%Q in
  (token, <[user_id := {| token := token; expire_time := expire_time; used := false |}]> s).

(** [verify_token]: [now] is read after the [used] test.  The record
    is marked used and deleted on success; nothing else refers to it,
    so the mark is not observable and only the deletion is kept. *)
Definition verify_token (now : Q) (user_id : Z) (tok : string)
    (s : tokens) : py bool * tokens :=
  match s !! user_id with
  | None => (Ret false, s)
  | Some token_info =>
      if used token_info then (Ret false, delete user_id s)
      else if Qgtb now (expire_time token_info) then (Ret false, delete user_id s)
      else
        match compare_digest (token token_info) tok with
        | Raise e => (Raise e, s)
        | Ret false => (Ret false, s)
        | Ret true => (Ret true, delete user_id s)
        end
  end.

Definition has_valid_token (now : Q) (user_id : Z) (s : tokens) : bool :=
  match s !! user_id with
  | None => false
  | Some token_info =>
      if used token_info then false
      else if Qgtb now (expire_time token_info) then false
      else true
  end.

(** [get_token_remaining_time]: [int] of the float difference. *)
Definition get_token_remaining_time (fl : Q -> Q) (now : Q) (user_id : Z)
    (s : tokens) : option Z :=
  match s !! user_id with
  | None => None
  | Some token_info =>
      if used token_info then None
      else
        let remaining := int_of (fl (expire_time token_info - now)%Q) in
        if (remaining <=? 0)%Z then None else Some remaining
  end.

Definition revoke_token (user_id : Z) (s : tokens) : bool * tokens :=
  if bool_decide (is_Some (s !! user_id)) then (true, delete user_id s)
  else (false, s).

(** [cleanup_expired]: the users whose record is past its expiry time
    are collected first and deleted one by one; the count is returned.
    (The order in which the dict is walked does not show in the
    result.) *)
Definition cleanup_expired (now : Q) (s : tokens) : nat * tokens :=
  let expired_users :=
    (filter (fun kv => Qgtb now (expire_time (snd kv)) = true) (map_to_list s)).*1 in
  (length expired_users, foldl (fun m user_id => delete user_id m) s expired_users).

End Token.

(** ** [services/ban.py]: the ban list *)

Module Ban.
Import Py.

(** What the file system answers to the write of [_save_banned_list]:
    the [open]/[json.dump] pair completes, or raises an exception
    whose text is [e]. *)
Inductive write_outcome : Type :=
| WriteOk
| WriteError (e : string).

Record BanService : Type := {
  _initialized : bool;
  _banned_users : gset Z
}.

(** [__init__]: an empty set, not yet loaded. *)
Definition new : BanService :=
  {| _initialized := false; _banned_users := ∅ |}.

(** [initialize]: [loaded] is what [_load_banned_list] reads from the
    data directory at that moment. *)
Definition initialize (loaded : list Z) (s : BanService) : BanService :=
  if _initialized s then s
  else {| _initialized := true; _banned_users := list_to_set loaded |}.

Definition ensure_initialized (loaded : list Z) (s : BanService) : BanService :=
  if negb (_initialized s) then initialize loaded s else s.

(** [_save_banned_list]: [users] is the list handed to [json.dump];
    the result only depends on how the write went. *)
Definition _save_banned_list (users : list Z) (io : write_outcome) : Result.t unit :=
  match io with
  | WriteOk => Result.success tt
  | WriteError e => Result.fail (String.append "保存失败: " e)
  end.

Definition is_banned (loaded : list Z) (user_id : Z) (s : BanService)
    : bool * BanService :=
  let s := ensure_initialized loaded s in
  (bool_decide (user_id ∈ _banned_users s), s).

Definition ban (loaded : list Z) (io : write_outcome) (user_id : Z)
    (s : BanService) : Result.t bool * BanService :=
  let s := ensure_initialized loaded s in
  if bool_decide (user_id ∈ _banned_users s) then (Result.success false, s)
  else
    let s := {| _initialized := _initialized s;
                _banned_users := {[user_id]} ∪ _banned_users s |} in
    let save_result := _save_banned_list (elements (_banned_users s)) io in
    if Result.is_success save_result then (Result.success true, s)
    else (Result.fail (or_str (Result.error save_result) "保存失败"), s).

Definition unban (loaded : list Z) (io : write_outcome) (user_id : Z)
    (s : BanService) : Result.t bool * BanService :=
  let s := ensure_initialized loaded s in
  if negb (bool_decide (user_id ∈ _banned_users s)) then (Result.success false, s)
  else
    let s := {| _initialized := _initialized s;
                _banned_users := _banned_users s ∖ {[user_id]} |} in
    let save_result := _save_banned_list (elements (_banned_users s)) io in
    if Result.is_success save_result then (Result.success true, s)
    else (Result.fail (or_str (Result.error save_result) "保存失败"), s).

Definition get_banned_count (loaded : list Z) (s : BanService) : nat * BanService :=
  let s := ensure_initialized loaded s in
  (size (_banned_users s), s).

(** [get_banned_list]: a fresh list of the members, in the order the
    set enumerates them. *)
Definition get_banned_list (loaded : list Z) (s : BanService) : list Z * BanService :=
  let s := ensure_initialized loaded s in
  (elements (_banned_users s), s).

(** [ServiceBase.reset], inherited: the next use loads the file again. *)
Definition reset (s : BanService) : BanService :=
  {| _initialized := false; _banned_users := _banned_users s |}.

End Ban.

(** ** [services/game.py]: one game state per group *)

Module Game.
Import Py.

Section GameService.

(** The fields a concrete game adds to [GameState]. *)
Context {P : Type}.

Record GameState : Type := {
  group_id : Z;
  is_active : bool;
  fields : P
}.

(** Game states are mutable objects that callers keep after
    [start_game] and [get_game] handed them out: the service holds an
    object store and [_games] maps a group to an address in it. *)
Record GameService : Type := {
  objects : gmap nat GameState;
  _games : gmap Z nat
}.

Definition new : GameService := {| objects := ∅; _games := ∅ |}.

(** [obj.is_active = v] through a reference. *)
Definition set_is_active (v : bool) (st : GameState) : GameState :=
  {| group_id := group_id st; is_active := v; fields := fields st |}.

(** [self._games.get(group_id)] followed by a read of the object. *)
Definition deref (s : GameService) (ref : nat) : option GameState :=
  objects s !! ref.

Definition get_game (group_id : Z) (s : GameService) : option nat :=
  _games s !! group_id.

Definition has_active_game (group_id : Z) (s : GameService) : bool :=
  match get_game group_id s with
  | None => false
  | Some ref =>
      match deref s ref with
      | Some game => is_active game
      | None => false
      end
  end.

Definition end_game (group_id : Z) (s : GameService) : bool * GameService :=
  match _games s !! group_id with
  | None => (false, s)
  | Some ref =>
      (true, {| objects := alter (set_is_active false) ref (objects s);
                _games := delete group_id (_games s) |})
  end.

(** [start_game]: [create_game] is the subclass's constructor applied
    to the keyword arguments of the call; it may raise, and the
    [except Exception] clause turns what it catches into a failure. *)
Definition start_game (create_game : Z -> py GameState) (group_id : Z)
    (s : GameService) : py (Result.t nat) * GameService :=
  let s := if bool_decide (is_Some (_games s !! group_id))
           then snd (end_game group_id s) else s in
  match create_game group_id with
  | Raise e =>
      if is_exception e
      then (Ret (Result.fail (String.append "开始游戏失败: " (exn_str e))), s)
      else (Raise e, s)
  | Ret game =>
      let ref := fresh (dom (objects s)) in
      (Ret (Result.success ref),
       {| objects := <[ref := game]> (objects s);
          _games := <[group_id := ref]> (_games s) |})
  end.

(** A game's own update of its fields on a state object it holds
    ([game.shot_count += 1] and the like): [group_id] and [is_active]
    stay as they are. *)
Definition update_fields (ref : nat) (game : GameState) (new_fields : P)
    (s : GameService) : GameService :=
  {| objects := <[ref := {| group_id := group_id game; is_active := is_active game;
                            fields := new_fields |}]> (objects s);
     _games := _games s |}.

(** Every stored game is in progress, as after [start_game] with a
    constructor that leaves [is_active] at its default. *)
Definition stored_active (s : GameService) : Prop :=
  forall g ref, _games s !! g = Some ref ->
    exists game, objects s !! ref = Some game /\ is_active game = true.

(** Whether the object at an address is a game in progress. *)
Definition active_at (s : GameService) (ref : nat) : bool :=
  match objects s !! ref with
  | Some game => is_active game
  | None => false
  end.

(** [get_active_games_count]: one for every stored state that is in
    progress. *)
Definition get_active_games_count (s : GameService) : nat :=
  length (filter (fun kv => active_at s (snd kv) = true) (map_to_list (_games s))).

(** [list_active_games]: the groups whose stored state is in
    progress, with the state object of each. *)
Definition list_active_games (s : GameService) : gmap Z nat :=
  filter (fun kv => active_at s (snd kv) = true) (_games s).

(** No state object is stored for two groups. *)
Definition distinct_refs (s : GameService) : Prop :=
  forall g g' ref, _games s !! g = Some ref -> _games s !! g' = Some ref -> g = g'.

(** The two facts kept by every state reached through the service
    alone. *)
Definition game_invariant (s : GameService) : Prop :=
  stored_active s /\ distinct_refs s.

(** The states of a service as the repository uses it: games are
    started and ended through [start_game] and [end_game], by
    constructors that leave [is_active] at its default [True], and
    between the two a game only updates the fields of its own state
    object.  (The only assignment to [is_active] in the repository is
    the one in [end_game].) *)
Inductive reachable : GameService -> Prop :=
| reachable_new : reachable new
| reachable_start (s : GameService) (g : Z) (create_game : Z -> py GameState) :
    reachable s ->
    (forall game, create_game g = Ret game -> is_active game = true) ->
    reachable (snd (start_game create_game g s))
| reachable_end (s : GameService) (g : Z) :
    reachable s -> reachable (snd (end_game g s))
| reachable_update (s : GameService) (ref : nat) (game : GameState) (new_fields : P) :
    reachable s -> objects s !! ref = Some game ->
    reachable (update_fields ref game new_fields s).

End GameService.

Arguments GameState : clear implicits.
Arguments GameService : clear implicits.

End Game.

(** ** [config.py]: the settings the services read *)

Module Config.

(** The two numeric settings used by the chat service and the feature
    switches, [<feature>_enabled], by attribute name.  The settings
    object is mutable at run time, so every operation reads the value
    current at the call. *)
Record PluginConfig : Type := {
  max_history_per_group : Z;
  random_reply_cooldown : Z;
  switches : gmap string bool
}.

(** The defaults declared by the [Field]s. *)
Definition defaults : PluginConfig := {|
  max_history_per_group := 50;
  random_reply_cooldown := 30;
  switches := list_to_map
    [("math_enabled", true); ("random_enabled", true); ("highnoon_enabled", true);
     ("pjskpartiton_enabled", true); ("math_soup_enabled", true)]
|}.

End Config.

(** ** [services/chat.py]: chat history and cooldown *)

Module Chat.
Import Py Config.

Record ChatMessage : Type := {
  timestamp : Q;
  user_id : Z;
  username : string;
  message : string;
  is_bot : bool
}.

(** [collections.deque(maxlen=n)]: the bound is fixed at creation. *)
Record deque : Type := {
  maxlen : nat;
  items : list ChatMessage
}.

(** [deque(maxlen=n)] raises [ValueError] for a negative bound. *)
Definition deque_new (n : Z) : py deque :=
  if (n <? 0)%Z then Raise (ValueError "maxlen must be non-negative")
  else Ret {| maxlen := Z.to_nat n; items := [] |}.

(** [d.append(x)]: the entry goes to the right end, and a deque that
    has grown past its bound drops its leftmost entry. *)
Definition deque_append (x : ChatMessage) (d : deque) : deque :=
  let l := (items d ++ [x])%list in
  {| maxlen := maxlen d;
     items := if (maxlen d <? length l)%nat then drop 1 l else l |}.

Record ChatService : Type := {
  _initialized : bool;
  _history : gmap Z deque;
  _cooldown : gmap Z Q
}.

Definition new : ChatService :=
  {| _initialized := false; _history := ∅; _cooldown := ∅ |}.

Definition initialize (s : ChatService) : ChatService :=
  if _initialized s then s
  else {| _initialized := true; _history := _history s; _cooldown := _cooldown s |}.

Definition ensure_initialized (s : ChatService) : ChatService :=
  if negb (_initialized s) then initialize s else s.

Definition _get_or_create_history (cfg : PluginConfig) (group_id : Z)
    (s : ChatService) : py deque * ChatService :=
  match _history s !! group_id with
  | Some d => (Ret d, s)
  | None =>
      match deque_new (max_history_per_group cfg) with
      | Raise e => (Raise e, s)
      | Ret d =>
          (Ret d, {| _initialized := _initialized s;
                     _history := <[group_id := d]> (_history s);
                     _cooldown := _cooldown s |})
      end
  end.

Section Recording.

(** [_clean_cq_codes]: the regular-expression substitution and
    [strip] applied to the text before it is stored. *)
Variable _clean_cq_codes : string -> string.

(** [record_message]; [now] is the clock reading stored as timestamp. *)
Definition record_message (cfg : PluginConfig) (now : Q) (group_id : Z)
    (user_id : Z) (username : string) (message : string) (is_bot : bool)
    (s : ChatService) : py unit * ChatService :=
  let s := ensure_initialized s in
  match _get_or_create_history cfg group_id s with
  | (Raise e, s) => (Raise e, s)
  | (Ret history, s) =>
      let clean_message := _clean_cq_codes message in
      let entry := {| timestamp := now; user_id := user_id; username := username;
                      message := clean_message; is_bot := is_bot |} in
      (Ret tt, {| _initialized := _initialized s;
                  _history := <[group_id := deque_append entry history]> (_history s);
                  _cooldown := _cooldown s |})
  end.

End Recording.

Definition get_messages (group_id : Z) (limit : Z) (include_bot : bool)
    (s : ChatService) : list ChatMessage * ChatService :=
  let s := ensure_initialized s in
  match _history s !! group_id with
  | None => ([], s)
  | Some d =>
      let messages := items d in
      let messages :=
        if negb include_bot then filter (fun m => is_bot m = false) messages
        else messages in
      (if (limit <? Z.of_nat (length messages))%Z
       then slice_from (- limit) messages else messages, s)
  end.

(** [check_cooldown]: the elapsed time is the float difference,
    rounded by [fl]; its comparison with the integer setting is
    exact. *)
Definition check_cooldown (fl : Q -> Q) (cfg : PluginConfig) (now : Q)
    (group_id : Z) (s : ChatService) : bool * ChatService :=
  let s := ensure_initialized s in
  match _cooldown s !! group_id with
  | None => (true, s)
  | Some last =>
      let elapsed := fl (now - last)%Q in
      (Qgeb elapsed (inject_Z (random_reply_cooldown cfg)), s)
  end.

Definition set_cooldown (now : Q) (group_id : Z) (s : ChatService) : ChatService :=
  let s := ensure_initialized s in
  {| _initialized := _initialized s;
     _history := _history s;
     _cooldown := <[group_id := now]> (_cooldown s) |}.

(** A run of [set_cooldown] calls, oldest first, each with its clock
    reading and its group. *)
Definition set_cooldowns (calls : list (Q * Z)) (s : ChatService) : ChatService :=
  foldl (fun s c => set_cooldown (fst c) (snd c) s) s calls.

(** The entry stored for a message: the text goes through
    [_clean_cq_codes]. *)
Definition stored_entry (clean : string -> string) (m : ChatMessage) : ChatMessage :=
  {| timestamp := timestamp m; user_id := user_id m; username := username m;
     message := clean (message m); is_bot := is_bot m |}.

(** A run of [record_message] calls for one group, oldest first; a
    call that raises leaves the service as that call left it and the
    run goes on. *)
Definition record_all (clean : string -> string) (cfg : PluginConfig)
    (group_id : Z) (msgs : list ChatMessage) (s : ChatService) : ChatService :=
  foldl (fun s m =>
           snd (record_message clean cfg (timestamp m) group_id (user_id m)
                  (username m) (message m) (is_bot m) s)) s msgs.

(** [get_cooldown_remaining]: the integer setting is converted to a
    float and both differences are rounded. *)
Definition get_cooldown_remaining (fl : Q -> Q) (cfg : PluginConfig) (now : Q)
    (group_id : Z) (s : ChatService) : Q * ChatService :=
  let s := ensure_initialized s in
  match _cooldown s !! group_id with
  | None => (0%Q, s)
  | Some last =>
      let remaining :=
        fl (fl (inject_Z (random_reply_cooldown cfg)) - fl (now - last))%Q in
      (max0 remaining, s)
  end.

(** [clear_history]: [None] clears every group, a group id only that
    group ([pop] with a default: a missing key is not an error). *)
Definition clear_history (group_id : option Z) (s : ChatService) : ChatService :=
  let s := ensure_initialized s in
  {| _initialized := _initialized s;
     _history := match group_id with
                 | None => ∅
                 | Some g => delete g (_history s)
                 end;
     _cooldown := _cooldown s |}.

Definition clear_cooldown (group_id : option Z) (s : ChatService) : ChatService :=
  let s := ensure_initialized s in
  {| _initialized := _initialized s;
     _history := _history s;
     _cooldown := match group_id with
                  | None => ∅
                  | Some g => delete g (_cooldown s)
                  end |}.

(** The loop of [get_recent_users] over the messages, newest first:
    a message of a user not seen yet (and with a user id that is not
    0) adds the user, and the loop stops as soon as the list has
    [limit] entries. *)
Fixpoint recent_users_loop (limit : Z) (msgs : list ChatMessage) (seen : gset Z)
    (users : list (Z * string)) : list (Z * string) :=
  match msgs with
  | [] => users
  | msg :: rest =>
      if negb (user_id msg =? 0)%Z && negb (bool_decide (user_id msg ∈ seen))
      then
        let seen := {[user_id msg]} ∪ seen in
        let users := (users ++ [(user_id msg, username msg)])%list in
        if (limit <=? Z.of_nat (length users))%Z then users
        else recent_users_loop limit rest seen users
      else recent_users_loop limit rest seen users
  end.

Definition get_recent_users (group_id : Z) (limit : Z) (s : ChatService)
    : list (Z * string) * ChatService :=
  let s := ensure_initialized s in
  match _history s !! group_id with
  | None => ([], s)
  | Some d =>
      match items d with
      | [] => ([], s)
      | _ => (recent_users_loop limit (reverse (items d)) ∅ [], s)
      end
  end.

End Chat.

(** ** [plugin_base.py]: the command dispatch wrapper *)

Module Dispatch.
Import Py Config.

(** What the wrapper reads of a [MessageEvent]. *)
Record MessageEvent : Type := {
  user_id : Z;
  group_id : option Z
}.

(** The steps of a run that the claims speak about: a message handed
    to the matcher, an evaluation of the feature switch, an entry into
    the plugin's [handle]. *)
Inductive action : Type :=
| Sent (message : string)
| FeatureChecked
| Handled (event : MessageEvent) (args : string).

(** Everything a run of the handler can read or change: the ban
    service with the content of its file, the settings, the
    task-local [_current_event_var] and the actions so far. *)
Record world : Type := {
  ban_service : Ban.BanService;
  ban_file : list Z;
  config : PluginConfig;
  current_event : option MessageEvent;
  trace : list action
}.

(** Computations over the world that return or raise. *)
Definition M (A : Type) : Type := world -> py A * world.

Definition ret {A} (a : A) : M A := fun w => (Ret a, w).

Definition raise {A} (e : exn) : M A := fun w => (Raise e, w).

Definition bind {A B} (c : M A) (k : A -> M B) : M B :=
  fun w =>
    match c w with
    | (Ret a, w) => k a w
    | (Raise e, w) => (Raise e, w)
    end.

(** [try: body except Exception as e: on_error(e)]: an exception
    that is not an [Exception] is not caught. *)
Definition try_except {A} (body : M A) (on_error : exn -> M A) : M A :=
  fun w =>
    match body w with
    | (Ret a, w) => (Ret a, w)
    | (Raise e, w) => if is_exception e then on_error e w else (Raise e, w)
    end.

(** [try: body finally: cleanup]: the cleanup runs on both exits, and
    the outcome of the body stands unless the cleanup raises. *)
Definition try_finally {A} (body : M A) (cleanup : M unit) : M A :=
  fun w =>
    match body w with
    | (r, w) =>
        match cleanup w with
        | (Ret _, w) => (r, w)
        | (Raise e, w) => (Raise e, w)
        end
    end.

Declare Scope dispatch_scope.
Delimit Scope dispatch_scope with dispatch.
Notation "x <- c ;; k" := (bind c (fun x => k))
  (at level 100, c at next level, right associativity) : dispatch_scope.
Notation "c ;;; k" := (bind c (fun _ => k))
  (at level 100, right associativity) : dispatch_scope.
Local Open Scope dispatch_scope.

Definition emit (a : action) : M unit :=
  fun w =>
    (Ret tt, {| ban_service := ban_service w; ban_file := ban_file w;
                config := config w; current_event := current_event w;
                trace := (trace w ++ [a])%list |}).

(** [_current_event_var.set(event)]: the token remembers the old value. *)
Definition context_set (event : MessageEvent) : M (option MessageEvent) :=
  fun w =>
    (Ret (current_event w),
     {| ban_service := ban_service w; ban_file := ban_file w;
        config := config w; current_event := Some event; trace := trace w |}).

(** [_current_event_var.reset(token)]. *)
Definition context_reset (token : option MessageEvent) : M unit :=
  fun w =>
    (Ret tt, {| ban_service := ban_service w; ban_file := ban_file w;
                config := config w; current_event := token; trace := trace w |}).

(** A plugin instance as the wrapper sees it: its feature name,
    whether a matcher was registered for it, and the two methods a
    subclass supplies. *)
Record Plugin : Type := {
  feature_name : option string;
  _matcher : bool;
  handle : MessageEvent -> string -> M unit;
  handle_error : exn -> M unit
}.

Definition banned_message : string := "笨蛋,你的账号被拉黑了!".

Definition feature_off_message : string := "笨蛋,这个功能被关掉了!".

(** [finish]: with a matcher, [Matcher.finish] sends the message
    (delivery is taken to succeed) and raises [FinishedException];
    without one nothing happens. *)
Definition finish (plugin : Plugin) (message : string) : M unit :=
  if _matcher plugin then (emit (Sent message) ;;; raise FinishedException)
  else ret tt.

(** [PluginBase.handle_error] as inherited. *)
Definition default_handle_error (plugin : Plugin) (error : exn) : M unit :=
  finish plugin (String.append "处理出错: " (exn_str error)).

Definition _check_permission (event : MessageEvent) : M bool :=
  fun w =>
    let (banned, bs) := Ban.is_banned (ban_file w) (user_id event) (ban_service w) in
    (Ret (negb banned),
     {| ban_service := bs; ban_file := ban_file w; config := config w;
        current_event := current_event w; trace := trace w |}).

(** [_check_feature]: no feature name (or an empty one) means on;
    otherwise [getattr(config, name + "_enabled", True)]. *)
Definition _check_feature (plugin : Plugin) : M bool :=
  emit FeatureChecked ;;;
  match feature_name plugin with
  | None => ret true
  | Some name =>
      if bool_decide (name = "") then ret true
      else fun w =>
        (Ret (default true (switches (config w) !! String.append name "_enabled")), w)
  end.

Definition call_handle (plugin : Plugin) (event : MessageEvent) (args : string) : M unit :=
  emit (Handled event args) ;;; handle plugin event args.

Section Handler.

(** [args.extract_plain_text().strip()] on the command argument. *)
Variable extract_plain_text_strip : string -> string.

(** The closure built by [_create_handler]. *)
Definition handler (plugin : Plugin) (event : MessageEvent) (args : string) : M unit :=
  token <- context_set event ;;
  try_finally
    (allowed <- _check_permission event ;;
     if negb allowed then (finish plugin banned_message ;;; ret tt)
     else
       enabled <- _check_feature plugin ;;
       if negb enabled then (finish plugin feature_off_message ;;; ret tt)
       else
         let content := extract_plain_text_strip args in
         try_except (call_handle plugin event content)
           (fun e =>
              match e with
              | FinishedException => raise FinishedException
              | _ => handle_error plugin e
              end))
    (context_reset token).

End Handler.

(** What [_check_feature] answers for a plugin under given settings. *)
Definition feature_enabled (plugin : Plugin) (cfg : PluginConfig) : bool :=
  match feature_name plugin with
  | None => true
  | Some name =>
      if bool_decide (name = "") then true
      else default true (switches cfg !! String.append name "_enabled")
  end.

(** The world with its ban service, its current event and its trace
    replaced. *)
Definition with_state (w : world) (bs : Ban.BanService)
    (ev : option MessageEvent) (tr : list action) : world :=
  {| ban_service := bs; ban_file := ban_file w; config := config w;
     current_event := ev; trace := tr |}.

(** The closure built by [_create_message_handler] for a plugin whose
    [handle_message] is the given computation: the switch comes first,
    then the ban list; nothing is sent on a refusal and every
    [Exception] of [handle_message] is dropped. *)
Definition message_handler (plugin : Plugin) (handle_message : MessageEvent -> M unit)
    (event : MessageEvent) : M unit :=
  token <- context_set event ;;
  try_finally
    (enabled <- _check_feature plugin ;;
     if negb enabled then ret tt
     else
       allowed <- _check_permission event ;;
       if negb allowed then ret tt
       else try_except (handle_message event) (fun _ => ret tt))
    (context_reset token).

End Dispatch.

(** ** [services/registry.py]: the plugin registry *)

Module Registry.
Import Py.

Record PluginInfo : Type := {
  name : string;
  description : string;
  command : option string;
  aliases : option (gset string);
  feature_name : option string;
  usage : string;
  is_message_plugin : bool;
  hidden : bool
}.

(** [_plugins] is a dict whose order of insertion shows in the lists
    the queries return: an association list, oldest entry first.
    [_commands] is only looked up by key. *)
Record PluginRegistry : Type := {
  _plugins : list (string * PluginInfo);
  _commands : gmap string string
}.

Definition new : PluginRegistry := {| _plugins := []; _commands := ∅ |}.

(** [d.get(key)] on the association list. *)
Fixpoint dict_get (key : string) (d : list (string * PluginInfo)) : option PluginInfo :=
  match d with
  | [] => None
  | (k, v) :: d => if bool_decide (k = key) then Some v else dict_get key d
  end.

(** Truth value of an optional string: [None] and the empty string are
    falsy. *)
Definition truthy (x : option string) : bool :=
  match x with
  | Some s => negb (bool_decide (s = ""))
  | None => false
  end.

(** The key a plugin is registered under:
    [info.feature_name or info.name]. *)
Definition key_of (info : PluginInfo) : string :=
  or_str (feature_name info) (name info).

Definition register (info : PluginInfo) (r : PluginRegistry) : PluginRegistry :=
  let key := key_of info in
  if bool_decide (is_Some (dict_get key (_plugins r))) then r
  else
    let plugins := (_plugins r ++ [(key, info)])%list in
    let commands :=
      match command info with
      | None => _commands r
      | Some c =>
          if bool_decide (c = "") then _commands r
          else
            let commands := <[c := key]> (_commands r) in
            match aliases info with
            | None => commands
            | Some als => foldr (fun alias m => <[alias := key]> m) commands (elements als)
            end
      end in
    {| _plugins := plugins; _commands := commands |}.

Definition get_plugin (key : string) (r : PluginRegistry) : option PluginInfo :=
  dict_get key (_plugins r).

Definition get_plugin_by_command (cmd : string) (r : PluginRegistry)
    : option PluginInfo :=
  match _commands r !! cmd with
  | Some key => if bool_decide (key = "") then None else dict_get key (_plugins r)
  | None => None
  end.

Definition get_all_plugins (include_hidden : bool) (r : PluginRegistry)
    : list PluginInfo :=
  let plugins := (_plugins r).*2 in
  if negb include_hidden then filter (fun p => hidden p = false) plugins
  else plugins.

Definition get_command_plugins (include_hidden : bool) (r : PluginRegistry)
    : list PluginInfo :=
  let plugins :=
    filter (fun p => truthy (command p) && negb (is_message_plugin p) = true)
      (_plugins r).*2 in
  if negb include_hidden then filter (fun p => hidden p = false) plugins
  else plugins.

Definition get_message_plugins (include_hidden : bool) (r : PluginRegistry)
    : list PluginInfo :=
  let plugins := filter (fun p => is_message_plugin p = true) (_plugins r).*2 in
  if negb include_hidden then filter (fun p => hidden p = false) plugins
  else plugins.

Definition get_plugin_count (r : PluginRegistry) : nat := length (_plugins r).

Definition clear (r : PluginRegistry) : PluginRegistry := new.

(** A run of registrations, oldest first, on an empty registry. *)
Definition register_all (infos : list PluginInfo) : PluginRegistry :=
  foldl (fun r info => register info r) new infos.

End Registry.

(** ** [high_noon/__init__.py]: the roulette game *)

Module HighNoon.
Import Py Game.

(** The fields [HighNoonState] adds to [GameState]. *)
Record HighNoonFields : Type := {
  bullet_pos : Z;
  shot_count : Z;
  players : list Z
}.

Definition STATEMENTS : list string :=
  ["无需退路。( 1 / 6 )";
   "英雄们啊，为这最强大的信念，请站在我们这边。( 2 / 6 )";
   "颤抖吧，在真正的勇敢面前。( 3 / 6 )";
   "哭嚎吧，为你们不堪一击的信念。( 4 / 6 )";
   "现在可没有后悔的余地了。( 5 / 6 )"].

(** The dict [fire] returns. *)
Record FireResult : Type := {
  hit : bool;
  message : string;
  game_over : bool
}.

(** [create_game]; [bullet] is the value drawn by
    [random.randint(1, 6)]. *)
Definition create_game (bullet : Z) (group_id : Z) : py (GameState HighNoonFields) :=
  Ret {| group_id := group_id; is_active := true;
         fields := {| bullet_pos := bullet; shot_count := 0; players := [] |} |}.

(** [fire]: the state object is updated in place; on a hit the game
    is ended, otherwise the statement for the shot is looked up. *)
Definition fire (group_id : Z) (user_id : Z) (username : string)
    (s : GameService HighNoonFields)
    : py (option FireResult) * GameService HighNoonFields :=
  match get_game group_id s with
  | None => (Ret None, s)
  | Some ref =>
      match deref s ref with
      | None => (Ret None, s)
      | Some game =>
          if negb (is_active game) then (Ret None, s)
          else
            let f := fields game in
            let players :=
              if bool_decide (user_id ∈ players f) then players f
              else (players f ++ [user_id])%list in
            let shot_count := (shot_count f + 1)%Z in
            let game :=
              {| group_id := Game.group_id game; is_active := is_active game;
                 fields := {| bullet_pos := bullet_pos f; shot_count := shot_count;
                              players := players |} |} in
            let s := {| objects := <[ref := game]> (objects s); _games := _games s |} in
            if (shot_count =? bullet_pos f)%Z
            then
              (Ret (Some {| hit := true;
                            message := String.append "来吧,"
                                         (String.append username ",鲜血会染红这神圣的场所");
                            game_over := true |}),
               snd (end_game group_id s))
            else
              match list_index STATEMENTS (shot_count - 1) with
              | Raise e => (Raise e, s)
              | Ret statement =>
                  (Ret (Some {| hit := false; message := statement;
                                game_over := false |}), s)
              end
      end
  end.

(** The group's stored state is in progress, with the bullet at [b]
    and [c] shots fired. *)
Definition loaded (g : Z) (b c : Z) (s : GameService HighNoonFields) : Prop :=
  exists ref gid pl,
    _games s !! g = Some ref /\
    objects s !! ref =
      Some {| group_id := gid; is_active := true;
              fields := {| bullet_pos := b; shot_count := c; players := pl |} |}.

(** What [fire] returns for a shot that is not the bullet. *)
Definition miss (statement : string) : py (option FireResult) :=
  Ret (Some {| hit := false; message := statement; game_over := false |}).

(** A run of [fire] calls for one group, each with its user; the
    results are collected in order. *)
Fixpoint fires (group_id : Z) (shooters : list (Z * string))
    (s : GameService HighNoonFields)
    : list (py (option FireResult)) * GameService HighNoonFields :=
  match shooters with
  | [] => ([], s)
  | (user_id, username) :: rest =>
      let (r, s) := fire group_id user_id username s in
      let (rs, s) := fires group_id rest s in
      (r :: rs, s)
  end.

End HighNoon.

(** * Properties *)

(** ** Clock comparisons *)

Lemma Qgtb_false (a b : Q) : (a <= b)%Q -> Py.Qgtb a b = false.
Proof.
  intros H. unfold Py.Qgtb.
  apply negb_false_iff, Qle_bool_iff, H.
Qed.

Lemma Qgtb_true (a b : Q) : (b < a)%Q -> Py.Qgtb a b = true.
Proof.
  intros H. unfold Py.Qgtb.
  destruct (Qle_bool a b) eqn:E; [|reflexivity].
  apply Qle_bool_iff in E. lra.
Qed.

Lemma Qgeb_true (a b : Q) : (b <= a)%Q -> Py.Qgeb a b = true.
Proof. intros H. apply Qle_bool_iff, H. Qed.

Lemma Qgeb_false (a b : Q) : (a < b)%Q -> Py.Qgeb a b = false.
Proof.
  intros H. unfold Py.Qgeb.
  destruct (Qle_bool b a) eqn:E; [|reflexivity].
  apply Qle_bool_iff in E. lra.
Qed.

(** ** Rounding *)

Section Rounding.
Import Py.

Variable fl : Q -> Q.
Hypothesis ieee : ieee_rounding fl.

(** Rounding sees the value of a rational, not its fraction. *)
Lemma fl_compat (x y : Q) : (x == y)%Q -> (fl x == fl y)%Q.
Proof.
  intros E. apply Qle_antisym; apply (fl_monotone fl ieee); rewrite E; apply Qle_refl.
Qed.

Lemma fl_zero : (fl 0 == 0)%Q.
Proof. apply (fl_integer fl ieee 0). simpl. lia. Qed.

(** A double compared with a rounded value: rounding the other side
    cannot move it across the double. *)
Lemma fl_le_double (x y : Q) : (fl x == x)%Q -> (x <= y)%Q -> (x <= fl y)%Q.
Proof.
  intros Hx Hle. rewrite <- Hx. apply (fl_monotone fl ieee), Hle.
Qed.

Lemma fl_ge_double (x y : Q) : (fl x == x)%Q -> (y <= x)%Q -> (fl y <= x)%Q.
Proof.
  intros Hx Hle. rewrite <- Hx. apply (fl_monotone fl ieee), Hle.
Qed.

(** The difference of two doubles rounds to a value of its own
    sign. *)
Lemma fl_sub_nonneg (x y : Q) : (y <= x)%Q -> (0 <= fl (x - y))%Q.
Proof.
  intros H. rewrite <- fl_zero. apply (fl_monotone fl ieee). lra.
Qed.

Lemma fl_sub_pos (x y : Q) :
  (fl x == x)%Q -> (fl y == y)%Q -> (y < x)%Q -> (0 < fl (x - y))%Q.
Proof.
  intros Hx Hy H.
  destruct (Qlt_le_dec 0 (fl (x - y))) as [Hp|Hn]; [exact Hp|].
  assert (E : (fl (x - y) == 0)%Q).
  { apply Qle_antisym; [exact Hn|]. apply fl_sub_nonneg. lra. }
  pose proof (fl_difference fl ieee x y Hx Hy E). lra.
Qed.

Lemma fl_sub_diag (x y : Q) : (x == y)%Q -> (fl (x - y) == 0)%Q.
Proof.
  intros E. rewrite <- fl_zero. apply fl_compat. lra.
Qed.

End Rounding.

(** ** The rounding to the nearest double *)

Section RoundDouble.
Import Py.

Lemma round_half_even_nearest (n : Z) (d : positive) :
  nearest_even (n # d) (round_half_even n d).
Proof.
  unfold round_half_even.
  pose proof (Z.div_mod n (Z.pos d) ltac:(lia)) as E.
  pose proof (Z.mod_pos_bound n (Z.pos d) ltac:(lia)) as B.
  set (q := (n / Z.pos d)%Z) in *. set (r := (n mod Z.pos d)%Z) in *.
  unfold nearest_even, Qle, Qeq, Qminus, Qplus, Qopp, inject_Z.
  cbn [Qnum Qden]. 
  destruct (Z.compare_spec (2 * r) (Z.pos d)) as [H|H|H].
  - destruct (Z.even q) eqn:Ev.
    + split; [nia|]. split; [nia|]. intros _. exact Ev.
    + split; [nia|]. split; [nia|]. intros _.
      rewrite Z.add_1_r, Z.even_succ, <- Z.negb_even, Ev. reflexivity.
  - split; [nia|]. split; [nia|]. intros [H1|H1]; nia.
  - split; [nia|]. split; [nia|]. intros [H1|H1]; nia.
Qed.

Lemma nearest_even_compat (q q' : Q) (m : Z) :
  (q == q')%Q -> nearest_even q m -> nearest_even q' m.
Proof.
  intros E (H1 & H2 & H3). split; [lra|]. split; [lra|].
  intros [H|H]; apply H3; [left|right]; lra.
Qed.

(** Rounding to the nearest integer is monotone. *)
Lemma nearest_even_mono (q1 q2 : Q) (m1 m2 : Z) :
  (q1 <= q2)%Q -> nearest_even q1 m1 -> nearest_even q2 m2 -> (m1 <= m2)%Z.
Proof.
  intros Hle (L1 & U1 & T1) (L2 & U2 & T2).
  destruct (Z.le_gt_cases m1 m2) as [|Hgt]; [assumption|exfalso].
  assert (H : (inject_Z m2 + 1 <= inject_Z m1)%Q).
  { change 1%Q with (inject_Z 1). rewrite <- inject_Z_plus, <- Zle_Qle. lia. }
  assert (E1 : Z.even m1 = true) by (apply T1; left; lra).
  assert (E2 : Z.even m2 = true) by (apply T2; right; lra).
  assert (E : (inject_Z m1 == inject_Z (m2 + 1))%Q).
  { rewrite inject_Z_plus. change (inject_Z 1) with 1%Q. lra. }
  apply (proj1 (inject_Z_injective _ _)) in E.
  rewrite E, Z.add_1_r, Z.even_succ, <- Z.negb_even, E2 in E1. discriminate.
Qed.

Lemma nearest_even_integer (z : Z) : nearest_even (inject_Z z) z.
Proof. split; [lra|]. split; [lra|]. intros [H|H]; lra. Qed.

Lemma nearest_even_ge (q : Q) (m z : Z) :
  nearest_even q m -> (inject_Z z <= q)%Q -> (z <= m)%Z.
Proof.
  intros Hm Hz. exact (nearest_even_mono _ _ _ _ Hz (nearest_even_integer z) Hm).
Qed.

Lemma nearest_even_le (q : Q) (m z : Z) :
  nearest_even q m -> (q <= inject_Z z)%Q -> (m <= z)%Z.
Proof.
  intros Hm Hz. exact (nearest_even_mono _ _ _ _ Hz Hm (nearest_even_integer z)).
Qed.

Lemma nearest_even_exact (q : Q) (m z : Z) :
  nearest_even q m -> (q == inject_Z z)%Q -> m = z.
Proof.
  intros Hm Hz. apply Z.le_antisymm.
  - apply (nearest_even_le q); [exact Hm | lra].
  - apply (nearest_even_ge q); [exact Hm | lra].
Qed.

(** Powers of two with an integer exponent. *)
Lemma pow2_pos (k : Z) : (0 < 2 ^ k)%Q.
Proof. apply Qpower_0_lt. reflexivity. Qed.

Lemma pow2_add (a b : Z) : (2 ^ (a + b) == 2 ^ a * 2 ^ b)%Q.
Proof. apply Qpower_plus. discriminate. Qed.

Lemma pow2_le (a b : Z) : (a <= b)%Z -> (2 ^ a <= 2 ^ b)%Q.
Proof. intros H. apply Qpower_le_compat_l; [exact H | discriminate]. Qed.

Lemma pow2_lt (a b : Z) : (a < b)%Z -> (2 ^ a < 2 ^ b)%Q.
Proof. intros H. apply Qpower_lt_compat_l; [exact H | reflexivity]. Qed.

Lemma pow2_lt_inv (a b : Z) : (2 ^ a < 2 ^ b)%Q -> (a < b)%Z.
Proof. intros H. apply (Qpower_lt_compat_l_inv 2); [exact H | reflexivity]. Qed.

Lemma pow2_inject (k : Z) : (0 <= k)%Z -> (2 ^ k == inject_Z (2 ^ k))%Q.
Proof. intros H. rewrite Zpower_Qpower by exact H. reflexivity. Qed.

Lemma pow2_cancel (a : Z) : (2 ^ a * 2 ^ (- a) == 1)%Q.
Proof. rewrite <- pow2_add, Z.add_opp_diag_r. reflexivity. Qed.

Lemma pow2_shift_le (k : Z) (x y : Q) : (x <= y * 2 ^ (- k) <-> 2 ^ k * x <= y)%Q.
Proof.
  pose proof (pow2_cancel k) as C. pose proof (pow2_pos k) as Pk.
  pose proof (pow2_pos (- k)) as Pk'.
  assert (E1 : (2 ^ k * (y * 2 ^ (- k)) == y)%Q).
  { rewrite (Qmult_comm y), Qmult_assoc, C. apply Qmult_1_l. }
  assert (E2 : (2 ^ (- k) * (2 ^ k * x) == x)%Q).
  { rewrite Qmult_assoc, (Qmult_comm (2 ^ (- k))), C. apply Qmult_1_l. }
  split; intros H.
  - rewrite <- E1. apply Qmult_le_l; assumption.
  - rewrite <- E2, (Qmult_comm y). apply Qmult_le_l; assumption.
Qed.

Lemma log2_bounds (p : positive) :
  (2 ^ Z.log2 (Z.pos p) <= inject_Z (Z.pos p))%Q /\
  (inject_Z (Z.pos p) < 2 ^ (Z.log2 (Z.pos p) + 1))%Q.
Proof.
  pose proof (Z.log2_spec (Z.pos p) ltac:(lia)) as [L U].
  pose proof (Z.log2_nonneg (Z.pos p)) as H0.
  rewrite !pow2_inject by lia. rewrite <- Zle_Qle, <- Zlt_Qlt. 
  rewrite Z.add_1_r. auto.
Qed.

(** [binary_exponent] is the exponent of the leading bit. *)
Lemma binary_exponent_spec (n d : positive) :
  (2 ^ binary_exponent n d <= Z.pos n # d)%Q /\
  (Z.pos n # d < 2 ^ (binary_exponent n d + 1))%Q.
Proof.
  destruct (log2_bounds n) as [Ln Un]. destruct (log2_bounds d) as [Ld Ud].
  set (a := Z.log2 (Z.pos n)) in *. set (b := Z.log2 (Z.pos d)) in *.
  set (N := inject_Z (Z.pos n)) in *. set (D := inject_Z (Z.pos d)) in *.
  assert (HD : (0 < D)%Q) by (subst D; change 0%Q with (inject_Z 0);
                              rewrite <- Zlt_Qlt; lia).
  assert (Hdiv : forall c : Q, ((c * D <= N)%Q -> (c <= Z.pos n # d)%Q) /\
                               ((N < c * D)%Q -> (Z.pos n # d < c)%Q)).
  { intros c. rewrite (Qmake_Qdiv (Z.pos n) d). fold N D. split; intros H.
    - apply Qle_shift_div_l; assumption.
    - apply Qlt_shift_div_r; assumption. }
  assert (Hbelow : forall k, k = (a - b)%Z ->
            ((if (0 <=? k)%Z then (Z.pos d * 2 ^ k <=? Z.pos n)%Z
              else (Z.pos d <=? Z.pos n * 2 ^ (- k))%Z) = true
             <-> (2 ^ k * D <= N)%Q)).
  { intros k _. destruct (Z.leb_spec 0 k) as [Hk|Hk].
    - rewrite Z.leb_le, pow2_inject by lia. subst N D.
      rewrite <- inject_Z_mult, <- Zle_Qle. lia.
    - rewrite Z.leb_le.
      assert (E : (2 ^ (- k) == inject_Z (2 ^ (- k)))%Q) by (apply pow2_inject; lia).
      rewrite (Zle_Qle (Z.pos d)), inject_Z_mult. fold N D. rewrite <- E.
      apply pow2_shift_le. }
  unfold binary_exponent. fold a b.
  specialize (Hbelow (a - b)%Z eq_refl).
  destruct (if (0 <=? a - b)%Z then _ else _) eqn:Eb.
  - apply proj1 in Hbelow. specialize (Hbelow eq_refl).
    split; [apply Hdiv; exact Hbelow|]. apply Hdiv.
    assert (E : (2 ^ (a + 1) == 2 ^ (a - b + 1) * 2 ^ b)%Q).
    { rewrite <- pow2_add. f_equiv. lia. }
    pose proof (pow2_pos (a - b + 1)) as P.
    apply Qlt_le_trans with (2 ^ (a + 1))%Q; [exact Un|]. rewrite E.
    apply Qmult_le_l; assumption.
  - assert (Hlt : (N < 2 ^ (a - b) * D)%Q).
    { apply Qnot_le_lt. intros H. apply Hbelow in H. congruence. }
    split; apply Hdiv.
    + assert (E : (2 ^ a == 2 ^ (a - b - 1) * 2 ^ (b + 1))%Q).
      { rewrite <- pow2_add. f_equiv. lia. }
      pose proof (pow2_pos (a - b - 1)) as P.
      apply Qle_trans with (2 ^ a)%Q; [|exact Ln]. rewrite E.
      apply Qmult_le_l; [assumption|]. apply Qlt_le_weak, Ud.
    + replace (a - b - 1 + 1)%Z with (a - b)%Z by lia. exact Hlt.
Qed.

Lemma pow2_positive (e : Z) :
  (0 <= e)%Z -> exists p, (2 ^ e)%Z = Z.pos p /\ (2 ^ e == inject_Z (Z.pos p))%Q /\
                          (2 ^ (- e) == 1 # p)%Q.
Proof.
  intros He. pose proof (Z.pow_pos_nonneg 2 e ltac:(lia) He) as Hp.
  destruct (2 ^ e)%Z as [|p|p] eqn:E; try lia.
  exists p. split; [reflexivity|].
  assert (E2 : (2 ^ e == inject_Z (Z.pos p))%Q) by (rewrite pow2_inject, E by lia; reflexivity).
  split; [exact E2|]. rewrite Qpower_opp, E2. reflexivity.
Qed.

(** [round_double_pos] computes the nearest double. *)
Lemma round_double_pos_rounds (n d : positive) :
  rounds_to (Z.pos n # d) (round_double_pos n d).
Proof.
  destruct (binary_exponent_spec n d) as [L U].
  exists (binary_exponent n d). unfold round_double_pos.
  set (e := Z.max (binary_exponent n d - 52) (-1074)).
  destruct (Z.leb_spec 0 e) as [He|He].
  - destruct (pow2_positive e He) as (p & -> & E1 & E2).
    exists (round_half_even (Z.pos n) (d * p)).
    split; [exact L|]. split; [exact U|]. split.
    + apply (nearest_even_compat (Z.pos n # d * p)); [|apply round_half_even_nearest].
      rewrite E2. unfold Qeq, Qmult. cbn [Qnum Qden]. lia.
    + rewrite inject_Z_mult, E1. reflexivity.
  - destruct (pow2_positive (- e) ltac:(lia)) as (p & -> & E1 & E2).
    rewrite Z.opp_involutive in E2.
    exists (round_half_even (Z.pos n * Z.pos p) d).
    split; [exact L|]. split; [exact U|]. split.
    + apply (nearest_even_compat (Z.pos n * Z.pos p # d));
        [|apply round_half_even_nearest].
      rewrite E1. unfold Qeq, Qmult, inject_Z. cbn [Qnum Qden]. lia.
    + rewrite E2. unfold Qeq, Qmult, inject_Z. cbn [Qnum Qden]. lia.
Qed.

Lemma pow2_le_inv (a b : Z) : (2 ^ a <= 2 ^ b)%Q -> (a <= b)%Z.
Proof. intros H. apply (Qpower_le_compat_l_inv 2); [exact H | reflexivity]. Qed.

Lemma pow2_scale (a b : Z) : (2 ^ a * 2 ^ (- b) == 2 ^ (a - b))%Q.
Proof. rewrite <- pow2_add. reflexivity. Qed.

Lemma scale_back (x : Q) (e : Z) : (x * 2 ^ (- e) * 2 ^ e == x)%Q.
Proof.
  rewrite <- Qmult_assoc, (Qmult_comm (2 ^ (- e))), pow2_cancel. apply Qmult_1_r.
Qed.

Section Rounds.

Variables (x r : Q) (k m : Z).
Let e := Z.max (k - 52) (-1074).
Hypothesis L : (2 ^ k <= x)%Q.
Hypothesis U : (x < 2 ^ (k + 1))%Q.
Hypothesis Hm : nearest_even (x * 2 ^ (- e))%Q m.
Hypothesis Hr : (r == inject_Z m * 2 ^ e)%Q.

Lemma rounds_pos : (0 < x)%Q.
Proof. pose proof (pow2_pos k). lra. Qed.

(** The multiple has at most [j] bits when the scaled value is below
    [2^j]. *)
Lemma rounds_multiple_le (j : Z) : (0 <= j)%Z -> (k + 1 - e <= j)%Z -> (m <= 2 ^ j)%Z.
Proof.
  intros Hj Hk. apply (nearest_even_le _ _ _ Hm).
  rewrite <- pow2_inject by exact Hj.
  apply Qle_trans with (2 ^ (k + 1 - e))%Q; [|apply pow2_le, Hk].
  rewrite <- pow2_scale. apply Qmult_le_compat_r; [lra|].
  apply Qlt_le_weak, pow2_pos.
Qed.

Lemma rounds_multiple_ge (j : Z) : (0 <= j)%Z -> (j <= k - e)%Z -> (2 ^ j <= m)%Z.
Proof.
  intros Hj Hk. apply (nearest_even_ge _ _ _ Hm).
  rewrite <- pow2_inject by exact Hj.
  apply Qle_trans with (2 ^ (k - e))%Q; [apply pow2_le, Hk|].
  rewrite <- pow2_scale. apply Qmult_le_compat_r; [lra|].
  apply Qlt_le_weak, pow2_pos.
Qed.

Lemma rounds_multiple_nonneg : (0 <= m)%Z.
Proof.
  apply (nearest_even_ge _ _ _ Hm). change (inject_Z 0) with 0%Q.
  apply Qmult_le_0_compat; [apply Qlt_le_weak, rounds_pos|].
  apply Qlt_le_weak, pow2_pos.
Qed.

Lemma rounds_nonneg : (0 <= r)%Q.
Proof.
  rewrite Hr. apply Qmult_le_0_compat; [|apply Qlt_le_weak, pow2_pos].
  change 0%Q with (inject_Z 0). rewrite <- Zle_Qle. apply rounds_multiple_nonneg.
Qed.

(** A value that is a multiple of [2^e] is its own rounding. *)
Lemma rounds_exact (z : Z) : (x * 2 ^ (- e) == inject_Z z)%Q -> (r == x)%Q.
Proof.
  intros Hz. rewrite Hr, (nearest_even_exact _ _ _ Hm Hz), <- Hz.
  apply scale_back.
Qed.

(** The result is at most the power of two above, at least the one
    below. *)
Lemma rounds_le_pow2 (j : Z) : (k + 1 <= j)%Z -> (e <= j)%Z -> (r <= 2 ^ j)%Q.
Proof.
  intros H1 H2. rewrite Hr.
  assert (Hmj : (m <= 2 ^ (j - e))%Z) by (apply rounds_multiple_le; lia).
  apply Qle_trans with (inject_Z (2 ^ (j - e)) * 2 ^ e)%Q.
  - apply Qmult_le_compat_r; [rewrite <- Zle_Qle; exact Hmj|].
    apply Qlt_le_weak, pow2_pos.
  - rewrite <- pow2_inject, <- pow2_add by lia.
    replace (j - e + e)%Z with j by lia. apply Qle_refl.
Qed.

Lemma rounds_ge_pow2 : (-1074 <= k)%Z -> (2 ^ k <= r)%Q.
Proof.
  intros H. rewrite Hr.
  assert (Hmj : (2 ^ (k - e) <= m)%Z) by (apply rounds_multiple_ge; lia).
  apply Qle_trans with (inject_Z (2 ^ (k - e)) * 2 ^ e)%Q.
  - rewrite <- pow2_inject, <- pow2_add by lia.
    replace (k - e + e)%Z with k by lia. apply Qle_refl.
  - apply Qmult_le_compat_r; [rewrite <- Zle_Qle; exact Hmj|].
    apply Qlt_le_weak, pow2_pos.
Qed.

End Rounds.

Lemma rounds_to_nonneg (x r : Q) : rounds_to x r -> (0 < x)%Q /\ (0 <= r)%Q.
Proof.
  intros (k & m & L & U & Hm & Hr). split.
  - exact (rounds_pos x k L).
  - exact (rounds_nonneg x r k m L Hm Hr).
Qed.

(** Rounding is monotone on the positive rationals. *)
Lemma rounds_to_mono (x y r r' : Q) :
  (x <= y)%Q -> rounds_to x r -> rounds_to y r' -> (r <= r')%Q.
Proof.
  intros Hxy (k & m & L & U & Hm & Hr) (k' & m' & L' & U' & Hm' & Hr').
  assert (Hk : (k <= k')%Z).
  { assert (H : (2 ^ k < 2 ^ (k' + 1))%Q) by lra. apply pow2_lt_inv in H. lia. }
  destruct (Z.eq_dec (Z.max (k - 52) (-1074)) (Z.max (k' - 52) (-1074))) as [He|He].
  - rewrite Hr, Hr', <- He. rewrite <- He in Hm'.
    apply Qmult_le_compat_r; [|apply Qlt_le_weak, pow2_pos].
    rewrite <- Zle_Qle. apply (fun H => nearest_even_mono _ _ _ _ H Hm Hm').
    apply Qmult_le_compat_r; [exact Hxy|]. apply Qlt_le_weak, pow2_pos.
  - apply Qle_trans with (2 ^ k')%Q.
    + apply (rounds_le_pow2 x r k m U Hm Hr); lia.
    + apply (rounds_ge_pow2 y r' k' m' L' Hm' Hr'). lia.
Qed.

(** A multiple of [2^E] of at most 53 bits, with [E] not below the
    least exponent, is a double: rounding leaves it as it is. *)
Lemma rounds_to_fix (x r : Q) (M E : Z) :
  (0 < M <= 2 ^ 53)%Z -> (-1074 <= E)%Z -> (x == inject_Z M * 2 ^ E)%Q ->
  rounds_to x r -> (r == x)%Q.
Proof.
  intros [HM0 HM] HE Hx (k & m & L & U & Hm & Hr).
  set (e := Z.max (k - 52) (-1074)) in *.
  destruct (Z.eq_dec M (2 ^ 53)%Z) as [->|Hne].
  - assert (Hx' : (x == 2 ^ (53 + E))%Q).
    { rewrite Hx, pow2_add, <- pow2_inject by lia. reflexivity. }
    assert (Hk : k = (53 + E)%Z).
    { rewrite Hx' in L, U. apply pow2_le_inv in L. apply pow2_lt_inv in U. lia. }
    apply (rounds_exact x r k m Hm Hr (2 ^ 52)%Z). fold e.
    rewrite Hx', pow2_scale, <- pow2_inject by lia. f_equiv. lia.
  - assert (Hlt : (x < 2 ^ (53 + E))%Q).
    { rewrite Hx, pow2_add. apply Qmult_lt_compat_r; [apply pow2_pos|].
      rewrite pow2_inject, <- Zlt_Qlt by lia. lia. }
    assert (Hk : (k < 53 + E)%Z).
    { apply pow2_lt_inv. lra. }
    apply (rounds_exact x r k m Hm Hr (M * 2 ^ (E - e))%Z). fold e.
    rewrite Hx, <- Qmult_assoc, pow2_scale, inject_Z_mult, <- pow2_inject by lia.
    reflexivity.
Qed.

(** What rounding returns is such a multiple. *)
Lemma rounds_to_double (x r : Q) :
  rounds_to x r ->
  exists M E : Z, (0 <= M <= 2 ^ 53)%Z /\ (-1074 <= E)%Z /\ (r == inject_Z M * 2 ^ E)%Q.
Proof.
  intros (k & m & L & U & Hm & Hr).
  exists m, (Z.max (k - 52) (-1074)). split; [split|split].
  - exact (rounds_multiple_nonneg x k m L Hm).
  - apply (rounds_multiple_le x k m U Hm); lia.
  - lia.
  - exact Hr.
Qed.

(** Nothing at or above the least positive double is rounded to
    zero. *)
Lemma rounds_to_pos (x r : Q) :
  (2 ^ (-1074) <= x)%Q -> rounds_to x r -> (0 < r)%Q.
Proof.
  intros Hx (k & m & L & U & Hm & Hr).
  assert (Hk : (-1074 < k + 1)%Z) by (apply pow2_lt_inv; lra).
  pose proof (rounds_ge_pow2 x r k m L Hm Hr ltac:(lia)).
  pose proof (pow2_pos k). lra.
Qed.

(** [round_double] by the sign of its argument. *)
Lemma round_double_cases (x : Q) :
  ((x == 0)%Q /\ round_double x = 0%Q) \/
  rounds_to x (round_double x) \/
  (exists r, rounds_to (- x) r /\ round_double x = (- r)%Q).
Proof.
  destruct x as [[|n|n] d]; unfold round_double; cbn [Qnum Qden].
  - left. split; reflexivity.
  - right. left. apply round_double_pos_rounds.
  - right. right. exists (round_double_pos n d). split; [|reflexivity].
    apply round_double_pos_rounds.
Qed.

Lemma scaled_sign (c E : Z) :
  ((0 < inject_Z c * 2 ^ E)%Q -> (0 < c)%Z) /\
  ((inject_Z c * 2 ^ E < 0)%Q -> (c < 0)%Z).
Proof.
  pose proof (pow2_pos E) as P. split; intros H.
  - destruct (Z.lt_ge_cases 0 c) as [|Hc]; [assumption|exfalso].
    assert (Hq : (inject_Z c <= 0)%Q)
      by (change 0%Q with (inject_Z 0); rewrite <- Zle_Qle; lia).
    pose proof (Qmult_le_compat_r _ _ (2 ^ E)%Q Hq (Qlt_le_weak _ _ P)). lra.
  - destruct (Z.lt_ge_cases c 0) as [|Hc]; [assumption|exfalso].
    assert (Hq : (0 <= inject_Z c)%Q)
      by (change 0%Q with (inject_Z 0); rewrite <- Zle_Qle; lia).
    pose proof (Qmult_le_compat_r _ _ (2 ^ E)%Q Hq (Qlt_le_weak _ _ P)). lra.
Qed.

Lemma round_double_is_double (x : Q) : is_double (round_double x).
Proof.
  destruct (round_double_cases x) as [[_ ->]|[H|(r & H & ->)]].
  - exists 0%Z, 0%Z. split; [simpl; lia|]. split; [lia|]. reflexivity.
  - destruct (rounds_to_double _ _ H) as (M & E & HM & HE & Hr).
    exists M, E. split; [lia|]. split; [exact HE | exact Hr].
  - destruct (rounds_to_double _ _ H) as (M & E & HM & HE & Hr).
    exists (- M)%Z, E. split; [lia|]. split; [exact HE|].
    rewrite Hr, inject_Z_opp. ring.
Qed.

Lemma round_double_fix (v : Q) : is_double v -> (round_double v == v)%Q.
Proof.
  intros (M & E & HM & HE & Hv).
  destruct (round_double_cases v) as [[H0 ->]|[H|(r & H & ->)]].
  - symmetry. exact H0.
  - apply (rounds_to_fix v _ M E); [|exact HE|exact Hv|exact H].
    destruct (rounds_to_nonneg _ _ H) as [Hpos _]. rewrite Hv in Hpos.
    apply scaled_sign in Hpos. lia.
  - destruct (rounds_to_nonneg _ _ H) as [Hpos _].
    assert (Hneg : (inject_Z M * 2 ^ E < 0)%Q) by lra.
    apply scaled_sign in Hneg.
    assert (E1 : (r == - v)%Q).
    { apply (rounds_to_fix (- v) r (- M) E); [lia|exact HE| |exact H].
      rewrite Hv, inject_Z_opp. ring. }
    rewrite E1. ring.
Qed.

Lemma is_double_compat (v v' : Q) : (v == v')%Q -> is_double v -> is_double v'.
Proof.
  intros Hv (M & E & HM & HE & H). exists M, E. split; [exact HM|].
  split; [exact HE|]. rewrite <- Hv. exact H.
Qed.

(** Every double is a multiple of the least positive one. *)
Lemma is_double_grid (v : Q) :
  is_double v -> exists c : Z, (v == inject_Z c * 2 ^ (-1074))%Q.
Proof.
  intros (M & E & _ & HE & Hv). exists (M * 2 ^ (E + 1074))%Z.
  rewrite Hv, inject_Z_mult, <- pow2_inject, <- Qmult_assoc, <- pow2_add by lia.
  replace (E + 1074 + -1074)%Z with E by lia. reflexivity.
Qed.

Lemma grid_positive (c E : Z) (w : Q) :
  (w == inject_Z c * 2 ^ E)%Q -> (0 < w)%Q -> (2 ^ E <= w)%Q.
Proof.
  intros Hw Hpos. rewrite Hw in Hpos. apply scaled_sign in Hpos.
  rewrite Hw. rewrite <- (Qmult_1_l (2 ^ E)) at 1.
  apply Qmult_le_compat_r; [|apply Qlt_le_weak, pow2_pos].
  change 1%Q with (inject_Z 1). rewrite <- Zle_Qle. lia.
Qed.

Lemma scaled_le (a b E : Z) :
  (inject_Z a * 2 ^ E <= inject_Z b * 2 ^ E)%Q -> (a <= b)%Z.
Proof.
  intros H. rewrite Zle_Qle. apply (Qmult_le_r _ _ (2 ^ E)%Q); [apply pow2_pos | exact H].
Qed.

Lemma rescale (M E E' : Z) :
  (E' <= E)%Z -> (inject_Z M * 2 ^ E == inject_Z (M * 2 ^ (E - E')) * 2 ^ E')%Q.
Proof.
  intros H. rewrite inject_Z_mult, <- pow2_inject, <- Qmult_assoc, <- pow2_add by lia.
  replace (E - E' + E')%Z with E by lia. reflexivity.
Qed.

(** The difference of two doubles within a factor of two of each
    other is a double. *)
Lemma is_double_sub (x y : Q) :
  is_double x -> is_double y -> (y <= x)%Q -> (x <= 2 * y)%Q -> is_double (x - y).
Proof.
  intros (Mx & Ex & HMx & HEx & Hx) (My & Ey & HMy & HEy & Hy) Hle Hle2.
  set (E := Z.min Ex Ey).
  rewrite (rescale Mx Ex E) in Hx by lia. rewrite (rescale My Ey E) in Hy by lia.
  set (a := (Mx * 2 ^ (Ex - E))%Z) in *. set (b := (My * 2 ^ (Ey - E))%Z) in *.
  assert (Hc : (x - y == inject_Z (a - b) * 2 ^ E)%Q).
  { rewrite Hx, Hy. unfold Z.sub at 1. rewrite inject_Z_plus, inject_Z_opp. ring. }
  assert (H0 : (0 <= a - b)%Z).
  { apply (scaled_le _ _ E). rewrite <- Hc. change (inject_Z 0) with 0%Q. lra. }
  assert (Ha : (a - b <= a)%Z).
  { apply (scaled_le _ _ E). rewrite <- Hc, <- Hx. lra. }
  assert (Hb : (a - b <= b)%Z).
  { apply (scaled_le _ _ E). rewrite <- Hc, <- Hy. lra. }
  exists (a - b)%Z, E. split; [|split; [lia | exact Hc]].
  destruct (Z.le_ge_cases Ex Ey) as [H|H].
  - assert (Ea : a = Mx).
    { subst a E. rewrite Z.min_l, Z.sub_diag by exact H. simpl. lia. }
    lia.
  - assert (Eb : b = My).
    { subst b E. rewrite Z.min_r, Z.sub_diag by exact H. simpl. lia. }
    lia.
Qed.

(** The rounding to the nearest double has the properties the
    services rely on. *)
Lemma round_double_ieee : ieee_rounding round_double.
Proof.
  split.
  - intros x y Hxy.
    destruct (round_double_cases x) as [[Hx ->]|[Hx|(r & Hx & ->)]];
      destruct (round_double_cases y) as [[Hy ->]|[Hy|(r' & Hy & ->)]];
      try (pose proof (rounds_to_nonneg _ _ Hx) as [Px Rx]);
      try (pose proof (rounds_to_nonneg _ _ Hy) as [Py Ry]); try lra.
    + exact (rounds_to_mono _ _ _ _ Hxy Hx Hy).
    + apply Qopp_le_compat. apply (rounds_to_mono (- y) (- x)); [lra|assumption..].
  - intros x. apply round_double_fix, round_double_is_double.
  - intros z Hz. apply round_double_fix. exists z, 0%Z.
    split; [exact Hz|]. split; [lia|]. rewrite Qpower_0_r. ring.
  - intros x y Hx Hy H0.
    destruct (is_double_grid x) as [a Ha];
      [apply (is_double_compat _ _ Hx), round_double_is_double|].
    destruct (is_double_grid y) as [b Hb];
      [apply (is_double_compat _ _ Hy), round_double_is_double|].
    assert (Hw : (x - y == inject_Z (a - b) * 2 ^ (-1074))%Q).
    { rewrite Ha, Hb. unfold Z.sub. rewrite inject_Z_plus, inject_Z_opp. ring. }
    destruct (round_double_cases (x - y)) as [[Hz _]|[H|(r & H & Hr)]].
    + lra.
    + exfalso. destruct (rounds_to_nonneg _ _ H) as [Hpos _].
      pose proof (rounds_to_pos _ _ (grid_positive _ _ _ Hw Hpos) H). lra.
    + exfalso. destruct (rounds_to_nonneg _ _ H) as [Hpos _].
      assert (Hw' : (- (x - y) == inject_Z (b - a) * 2 ^ (-1074))%Q).
      { rewrite Hw. replace (b - a)%Z with (- (a - b))%Z by lia.
        rewrite inject_Z_opp. ring. }
      pose proof (rounds_to_pos _ _ (grid_positive _ _ _ Hw' Hpos) H).
      rewrite Hr in H0. lra.
  - intros x y Hx Hy Hle Hle2. apply round_double_fix, is_double_sub; try assumption.
    + apply (is_double_compat _ _ Hx), round_double_is_double.
    + apply (is_double_compat _ _ Hy), round_double_is_double.
Qed.

End RoundDouble.

(** Exact arithmetic obeys the laws as well: what is proved of every
    rounding holds of the rationals as they are. *)
Lemma ieee_rounding_exact : Py.ieee_rounding (fun x => x).
Proof.
  split.
  - intros x y H. exact H.
  - intros x. reflexivity.
  - intros z _. reflexivity.
  - intros x y _ _ H. lra.
  - intros x y _ _ _ _. reflexivity.
Qed.

(** ** Tokens are ASCII *)

Lemma b64_digit_ascii (n : N) : Py.is_ascii_char (Py.b64_digit n) = true.
Proof.
  unfold Py.b64_digit.
  destruct (list_ascii_of_string Py.urlsafe_alphabet !! N.to_nat n) as [c|] eqn:E;
    [|reflexivity].
  apply list_elem_of_lookup_2, list_elem_of_In in E. simpl.
  assert (A : forallb Py.is_ascii_char
                (list_ascii_of_string Py.urlsafe_alphabet) = true)
    by (vm_compute; reflexivity).
  rewrite forallb_forall in A. apply A, E.
Qed.

Lemma urlsafe_b64encode_nopad_ascii (bs : list byte) :
  forallb Py.is_ascii_char (Py.urlsafe_b64encode_nopad bs) = true.
Proof.
  remember (length bs) as n eqn:Hn.
  revert bs Hn. induction n as [n IH] using lt_wf_ind. intros bs Hn.
  destruct bs as [|a [|b [|c rest]]]; cbn [Py.urlsafe_b64encode_nopad forallb].
  - reflexivity.
  - now rewrite !b64_digit_ascii.
  - now rewrite !b64_digit_ascii.
  - rewrite !b64_digit_ascii. cbn [andb].
    apply (IH (length rest)); [subst n; simpl; lia | reflexivity].
Qed.

Lemma token_urlsafe_ascii (urandom : nat -> list byte) (nbytes : nat) :
  Py.is_ascii (Py.token_urlsafe urandom nbytes) = true.
Proof.
  unfold Py.is_ascii, Py.token_urlsafe.
  rewrite list_ascii_of_string_of_list_ascii.
  apply urlsafe_b64encode_nopad_ascii.
Qed.

(** ** [compare_digest] on ASCII strings is string equality *)

Lemma compare_digest_same (a : string) :
  Py.is_ascii a = true -> Py.compare_digest a a = Py.Ret true.
Proof.
  intros H. unfold Py.compare_digest. rewrite H. simpl.
  now rewrite bool_decide_eq_true_2.
Qed.

Lemma compare_digest_differ (a b : string) :
  Py.is_ascii a = true -> Py.is_ascii b = true -> a <> b ->
  Py.compare_digest a b = Py.Ret false.
Proof.
  intros Ha Hb Hne. unfold Py.compare_digest. rewrite Ha, Hb. simpl.
  now rewrite bool_decide_eq_false_2.
Qed.

Lemma compare_digest_non_ascii (a b : string) :
  Py.is_ascii b = false ->
  exists msg, Py.compare_digest a b = Py.Raise (Py.TypeError msg).
Proof.
  intros Hb. unfold Py.compare_digest. rewrite Hb, andb_false_r. eauto.
Qed.

(** ** The token service *)

Section TokenFacts.
Import Py Token.

Variable fl : Q -> Q.
Variable urandom : nat -> list byte.

(** What [generate_token] stores for the user. *)
Lemma generate_token_stored (now : Q) (u : Z) (s : gmap Z TokenInfo) :
  snd (generate_token fl urandom now u s) !! u =
    Some {| token := fst (generate_token fl urandom now u s);
            expire_time := fl (now + inject_Z TOKEN_EXPIRE_SECONDS)%Q;
            used := false |}.
Proof. unfold generate_token. simpl. apply lookup_insert_eq. Qed.

Lemma generate_token_ascii (now : Q) (u : Z) (s : gmap Z TokenInfo) :
  is_ascii (fst (generate_token fl urandom now u s)) = true.
Proof. apply token_urlsafe_ascii. Qed.

(** A reading not after [now + 300] is not after the expiry time the
    code stores, the rounded sum: rounding is monotone and leaves the
    reading, a double, as it is. *)
Lemma within_window_rounded (now now1 : Q) :
  ieee_rounding fl -> (fl now1 == now1)%Q ->
  (now1 <= now + 300)%Q -> (now1 <= fl (now + 300))%Q.
Proof. intros I H1 H. apply (fl_le_double fl I), H. exact H1. Qed.

(** A matching token, presented while the record is unused and not
    expired, is accepted and the record is deleted. *)
Lemma verify_token_accepts (now : Q) (u : Z) (info : TokenInfo)
    (s : gmap Z TokenInfo) :
  s !! u = Some info -> used info = false -> is_ascii (token info) = true ->
  (now <= expire_time info)%Q ->
  verify_token now u (token info) s = (Ret true, delete u s).
Proof.
  intros Hs Hu Ha Hq. unfold verify_token.
  rewrite Hs, Hu, (Qgtb_false _ _ Hq), (compare_digest_same _ Ha).
  reflexivity.
Qed.

(** Without a record every token is refused and nothing changes. *)
Lemma verify_token_no_record (now : Q) (u : Z) (t : string)
    (s : gmap Z TokenInfo) :
  s !! u = None -> verify_token now u t s = (Ret false, s).
Proof. intros Hs. unfold verify_token. now rewrite Hs. Qed.

(** An expired record is refused, whatever the token, and deleted. *)
Lemma verify_token_expired (now : Q) (u : Z) (t : string) (info : TokenInfo)
    (s : gmap Z TokenInfo) :
  s !! u = Some info -> (expire_time info < now)%Q ->
  verify_token now u t s = (Ret false, delete u s).
Proof.
  intros Hs Hq. unfold verify_token. rewrite Hs.
  destruct (used info); [reflexivity|].
  now rewrite (Qgtb_true _ _ Hq).
Qed.

(** An ASCII token that differs from the stored one is refused and
    the record stays as it is. *)
Lemma verify_token_mismatch_keeps (now : Q) (u : Z) (t' : string)
    (info : TokenInfo) (s : gmap Z TokenInfo) :
  s !! u = Some info -> used info = false -> is_ascii (token info) = true ->
  (now <= expire_time info)%Q ->
  is_ascii t' = true -> t' <> token info ->
  verify_token now u t' s = (Ret false, s).
Proof.
  intros Hs Hu Ha Hq Ha' Hne. unfold verify_token.
  rewrite Hs, Hu, (Qgtb_false _ _ Hq).
  rewrite (compare_digest_differ _ _ Ha Ha'); [reflexivity|congruence].
Qed.

(** C1. [generate_token u] followed by [verify_token u t] with the
    returned token [t], at a clock reading [now1] not after the expiry
    time, the double [now + 300] the code computed (so at every
    reading not after the exact sum, [within_window_rounded]), returns
    [True]; a second [verify_token u t], at any later reading [now2],
    returns [False]: the token authorises exactly one operation. *)
Theorem generate_verify_once (now now1 now2 : Q) (u : Z) (s : gmap Z TokenInfo) :
  (now1 <= fl (now + 300))%Q ->
  let t := fst (generate_token fl urandom now u s) in
  let s1 := snd (generate_token fl urandom now u s) in
  let s2 := snd (verify_token now1 u t s1) in
  fst (verify_token now1 u t s1) = Ret true /\
  fst (verify_token now2 u t s2) = Ret false.
Proof.
  intros Hq t s1 s2.
  pose proof (generate_token_stored now u s) as Hst. fold s1 t in Hst.
  assert (E1 : verify_token now1 u t s1 = (Ret true, delete u s1)).
  { apply (verify_token_accepts now1 u _ s1 Hst); simpl.
    - reflexivity.
    - apply generate_token_ascii.
    - exact Hq. }
  subst s2. rewrite E1. simpl. split; [reflexivity|].
  rewrite verify_token_no_record; [reflexivity|apply lookup_delete_eq].
Qed.

(** C2. A token issued at reading [now] has as expiry time the double
    the code computes for [now + 300], the rounded sum;
    [verify_token u t] at a reading after that time returns [False]
    although [t] is the stored value, and the record is dropped. *)
Theorem verify_after_expiry_fails (now now1 : Q) (u : Z) (s : gmap Z TokenInfo) :
  (fl (now + 300) < now1)%Q ->
  let t := fst (generate_token fl urandom now u s) in
  let s1 := snd (generate_token fl urandom now u s) in
  (exists info, s1 !! u = Some info /\ token info = t /\
                expire_time info = fl (now + 300)%Q /\ used info = false) /\
  verify_token now1 u t s1 = (Ret false, delete u s1).
Proof.
  intros Hq t s1.
  pose proof (generate_token_stored now u s) as Hst. fold s1 t in Hst.
  split.
  - eexists. split; [exact Hst|]. simpl. auto.
  - apply (verify_token_expired now1 u t _ s1 Hst). simpl. exact Hq.
Qed.

End TokenFacts.

Lemma generate_verify_once_witness :
  (1100 <= Py.round_double (1000 + 300))%Q /\
  fst (Token.verify_token 1100 42
         (fst (Token.generate_token Py.round_double (fun n => repeat x2a n) 1000 42 ∅))
         (snd (Token.generate_token Py.round_double (fun n => repeat x2a n) 1000 42 ∅)))
    = Py.Ret true.
Proof.
  assert (H : (1100 <= Py.round_double (1000 + 300))%Q) by (vm_compute; discriminate).
  split; [exact H|].
  exact (proj1 (generate_verify_once Py.round_double (fun n => repeat x2a n)
                  1000 1100 1100 42 ∅ H)).
Defined.

Lemma verify_after_expiry_fails_witness :
  (Py.round_double (1000 + 300) < 1301)%Q /\
  fst (Token.verify_token 1301 42
         (fst (Token.generate_token Py.round_double (fun n => repeat x2a n) 1000 42 ∅))
         (snd (Token.generate_token Py.round_double (fun n => repeat x2a n) 1000 42 ∅)))
    = Py.Ret false.
Proof.
  assert (H : (Py.round_double (1000 + 300) < 1301)%Q) by (vm_compute; reflexivity).
  split; [exact H|].
  exact (f_equal fst (proj2 (verify_after_expiry_fails Py.round_double
                               (fun n => repeat x2a n) 1000 1301 42 ∅ H))).
Defined.

(** The token drawn from eight bytes [0x2a] is eleven base64 digits,
    and the round trip runs as stated. *)
Example generate_token_run :
  fst (Token.generate_token Py.round_double (fun n => repeat x2a n) 1000 42 ∅)
    = "KioqKioqKio".
Proof. vm_compute. reflexivity. Qed.

(** The doubles nearest to 0.1 and 300.1, and the sum the code stores
    for a token issued at the first: the second reading is after the
    exact sum, and not after the stored expiry time. *)
Example expiry_rounds_up :
  let now := Py.round_double (1 # 10) in
  let now1 := Py.round_double (3001 # 10) in
  (now + 300 < now1)%Q /\ (Py.round_double (now + 300) == now1)%Q /\
  fst (Token.verify_token now1 42
         (fst (Token.generate_token Py.round_double (fun n => repeat x2a n) now 42 ∅))
         (snd (Token.generate_token Py.round_double (fun n => repeat x2a n) now 42 ∅)))
    = Py.Ret true.
Proof. vm_compute. repeat split. Qed.

(** A non-ASCII [str] presented while the user holds a live token:
    [compare_digest] raises, so [verify_token] returns neither [True]
    nor [False]; the record is left in place. *)
Lemma non_ascii_token_raises (now : Q) (u : Z) (t' : string)
    (info : Token.TokenInfo) (s : gmap Z Token.TokenInfo) :
  s !! u = Some info -> Token.used info = false ->
  (now <= Token.expire_time info)%Q ->
  Py.is_ascii t' = false ->
  exists msg, Token.verify_token now u t' s = (Py.Raise (Py.TypeError msg), s).
Proof.
  intros Hs Hu Hq Ha. unfold Token.verify_token.
  rewrite Hs, Hu, (Qgtb_false _ _ Hq).
  destruct (compare_digest_non_ascii (Token.token info) t' Ha) as [msg ->].
  eauto.
Qed.

(** C10, at the input where the code departs from it: user 42 holds
    a token issued at reading 1000 and presents the text of a
    sub-command instead of the token at reading 1001.  The token is
    live ([has_valid_token] holds), the call raises [TypeError] instead
    of returning [False], and the store is unchanged. *)
Theorem verify_token_non_ascii_raises :
  let s := snd (Token.generate_token Py.round_double
                  (fun n => repeat x2a n) 1000 42 ∅) in
  Token.has_valid_token 1001 42 s = true /\
  Py.is_ascii "状态" = false /\
  Token.verify_token 1001 42 "状态" s =
    (Py.Raise (Py.TypeError
       "comparing strings with non-ASCII characters is not supported"), s).
Proof. vm_compute. auto. Qed.

(** ** The ban list *)

Section BanFacts.
Import Ban.

Lemma ensure_initialized_done (loaded : list Z) (s : BanService) :
  _initialized (ensure_initialized loaded s) = true.
Proof.
  unfold ensure_initialized, initialize.
  destruct (_initialized s) eqn:E; simpl; [exact E | reflexivity].
Qed.

Lemma ensure_initialized_id (loaded : list Z) (s : BanService) :
  _initialized s = true -> ensure_initialized loaded s = s.
Proof. intros H. unfold ensure_initialized. now rewrite H. Qed.

Lemma ban_initialized (loaded : list Z) (io : write_outcome) (x : Z)
    (s : BanService) :
  _initialized (snd (ban loaded io x s)) = true.
Proof.
  unfold ban. pose proof (ensure_initialized_done loaded s) as H.
  case_bool_decide; [exact H|].
  destruct (Result.is_success _); exact H.
Qed.

Lemma unban_initialized (loaded : list Z) (io : write_outcome) (x : Z)
    (s : BanService) :
  _initialized (snd (unban loaded io x s)) = true.
Proof.
  unfold unban. pose proof (ensure_initialized_done loaded s) as H.
  case_bool_decide; simpl; [|exact H].
  destruct (Result.is_success _); exact H.
Qed.

(** After [ban x] the user is in the set, whether or not the write
    went through. *)
Lemma ban_member (loaded : list Z) (io : write_outcome) (x : Z) (s : BanService) :
  x ∈ _banned_users (snd (ban loaded io x s)).
Proof.
  unfold ban. case_bool_decide as Hin; [exact Hin|].
  destruct (Result.is_success _); simpl; set_solver.
Qed.

Lemma unban_not_member (loaded : list Z) (io : write_outcome) (x : Z)
    (s : BanService) :
  x ∉ _banned_users (snd (unban loaded io x s)).
Proof.
  unfold unban. case_bool_decide as Hin; simpl.
  - destruct (Result.is_success _); simpl;
      (intros [_ Hx]%elem_of_difference; apply Hx, elem_of_singleton; reflexivity).
  - exact Hin.
Qed.

Lemma is_banned_initialized (loaded : list Z) (x : Z) (s : BanService) :
  _initialized s = true ->
  is_banned loaded x s = (bool_decide (x ∈ _banned_users s), s).
Proof. intros H. unfold is_banned. now rewrite (ensure_initialized_id _ _ H). Qed.

(** C3. With writes that succeed: [is_banned x] is true after
    [ban x] and false after [unban x]; a second [ban x] right after
    the first returns success with value [False] and leaves the
    service as it was; the first returns success with value [True]
    when [x] was not banned before (newly added).  [l1] and [l2] are
    the contents of the ban file at the two calls. *)
Theorem ban_unban_is_banned (l1 l2 : list Z) (x : Z) (s : BanService) :
  fst (is_banned l2 x (snd (ban l1 WriteOk x s))) = true /\
  fst (is_banned l2 x (snd (unban l1 WriteOk x s))) = false /\
  (let s1 := snd (ban l1 WriteOk x s) in
   ban l2 WriteOk x s1 = (Result.success false, s1)) /\
  (fst (is_banned l1 x s) = false ->
   fst (ban l1 WriteOk x s) = Result.success true).
Proof.
  repeat split.
  - rewrite is_banned_initialized by apply ban_initialized. simpl.
    apply bool_decide_eq_true_2, ban_member.
  - rewrite is_banned_initialized by apply unban_initialized. simpl.
    apply bool_decide_eq_false_2, unban_not_member.
  - intros s1. unfold ban at 1.
    rewrite ensure_initialized_id by apply ban_initialized.
    rewrite bool_decide_eq_true_2 by apply ban_member. reflexivity.
  - unfold is_banned, ban. simpl. intros H. rewrite H. reflexivity.
Qed.

(** C9. When [x] is not banned and the write of the ban file fails,
    [ban x] returns a failure, yet [x] has been added to the set in
    memory: the next [is_banned x] is true. *)
Theorem ban_failure_still_bans (l1 l2 : list Z) (e : string) (x : Z)
    (s : BanService) :
  fst (is_banned l1 x s) = false ->
  let r := ban l1 (WriteError e) x s in
  Result.is_success (fst r) = false /\
  Result.value (fst r) = None /\
  fst (is_banned l2 x (snd r)) = true.
Proof.
  intros H r. subst r. repeat split.
  - unfold is_banned in H. unfold ban. simpl in *. rewrite H. reflexivity.
  - unfold is_banned in H. unfold ban. simpl in *. rewrite H. reflexivity.
  - rewrite is_banned_initialized by apply ban_initialized. simpl.
    apply bool_decide_eq_true_2, ban_member.
Qed.

End BanFacts.

Lemma ban_unban_is_banned_witness :
  fst (Ban.is_banned [] 7 Ban.new) = false /\
  fst (Ban.ban [] Ban.WriteOk 7 Ban.new) = Result.success true.
Proof.
  assert (H : fst (Ban.is_banned [] 7 Ban.new) = false) by (vm_compute; reflexivity).
  split; [exact H|].
  exact (proj2 (proj2 (proj2 (ban_unban_is_banned [] [] 7 Ban.new))) H).
Defined.

Lemma ban_failure_still_bans_witness :
  fst (Ban.is_banned [] 7 Ban.new) = false /\
  Result.is_success (fst (Ban.ban [] (Ban.WriteError "disk full") 7 Ban.new)) = false /\
  fst (Ban.is_banned [] 7 (snd (Ban.ban [] (Ban.WriteError "disk full") 7 Ban.new)))
    = true.
Proof.
  assert (H : fst (Ban.is_banned [] 7 Ban.new) = false) by (vm_compute; reflexivity).
  split; [exact H|].
  pose proof (ban_failure_still_bans [] [] "disk full" 7 Ban.new H) as [A [_ B]].
  split; [exact A | exact B].
Defined.

(** ** The game-state service *)

Section GameFacts.
Import Game.
Context {P : Type}.

(** Nothing stored for the group: [end_game] returns [False] and
    changes nothing. *)
Lemma end_game_absent (g : Z) (s : GameService P) :
  _games s !! g = None -> end_game g s = (false, s).
Proof. intros H. unfold end_game. now rewrite H. Qed.

(** A state is stored for the group: [end_game] returns [True], the
    object is marked inactive where it lives and the group is removed
    from the map. *)
Lemma end_game_present (g : Z) (ref : nat) (game : GameState P) (s : GameService P) :
  _games s !! g = Some ref -> objects s !! ref = Some game ->
  fst (end_game g s) = true /\
  objects (snd (end_game g s)) !! ref = Some (set_is_active false game) /\
  _games (snd (end_game g s)) !! g = None.
Proof.
  intros Hg Ho. unfold end_game. rewrite Hg. simpl. repeat split.
  - rewrite lookup_alter_eq, Ho. reflexivity.
  - apply lookup_delete_eq.
Qed.

(** After [end_game] the group has no active game. *)
Lemma end_game_not_active (g : Z) (s : GameService P) :
  has_active_game g (snd (end_game g s)) = false.
Proof.
  unfold end_game, has_active_game, get_game.
  destruct (_games s !! g) as [ref|] eqn:Hg; simpl.
  - now rewrite lookup_delete_eq.
  - now rewrite Hg.
Qed.

(** [end_game] returns [True] exactly when a state was stored. *)
Lemma end_game_true_iff (g : Z) (s : GameService P) :
  fst (end_game g s) = true <-> is_Some (_games s !! g).
Proof.
  unfold end_game. destruct (_games s !! g) as [ref|]; simpl.
  - split; eauto.
  - split; [discriminate | intros [? ?]; discriminate].
Qed.

(** While every stored state is in progress, [end_game] returns
    [False] whenever [has_active_game] is false. *)
Lemma end_game_false_when_inactive (g : Z) (s : GameService P) :
  stored_active s -> has_active_game g s = false -> fst (end_game g s) = false.
Proof.
  intros Hinv Hact. unfold has_active_game, get_game, deref in Hact.
  unfold end_game. destruct (_games s !! g) as [ref|] eqn:Hg; [|reflexivity].
  destruct (Hinv g ref Hg) as (game & Ho & Ha).
  rewrite Ho in Hact. congruence.
Qed.

End GameFacts.

(** ** The chat service: cooldown *)

Section CooldownFacts.
Import Config Chat.

Lemma chat_ensure_initialized_cooldown (s : ChatService) :
  _cooldown (ensure_initialized s) = _cooldown s.
Proof.
  unfold ensure_initialized, initialize.
  destruct (_initialized s); reflexivity.
Qed.

Lemma chat_ensure_initialized_history (s : ChatService) :
  _history (ensure_initialized s) = _history s.
Proof.
  unfold ensure_initialized, initialize.
  destruct (_initialized s); reflexivity.
Qed.

Lemma set_cooldown_lookup (t0 : Q) (g g' : Z) (s : ChatService) :
  _cooldown (set_cooldown t0 g s) !! g' =
    if decide (g = g') then Some t0 else _cooldown s !! g'.
Proof.
  unfold set_cooldown. simpl.
  rewrite lookup_insert, chat_ensure_initialized_cooldown. reflexivity.
Qed.

(** Calls for other groups leave the entry of [g] absent. *)
Lemma set_cooldowns_other (g : Z) (calls : list (Q * Z)) (s : ChatService) :
  Forall (fun c => snd c <> g) calls ->
  _cooldown s !! g = None ->
  _cooldown (set_cooldowns calls s) !! g = None.
Proof.
  unfold set_cooldowns. intros Hall. revert s.
  induction Hall as [|c calls Hc _ IH]; intros s Hs; simpl; [exact Hs|].
  apply IH. rewrite set_cooldown_lookup.
  destruct (decide (snd c = g)); [contradiction | exact Hs].
Qed.

Lemma check_cooldown_unset (fl : Q -> Q) (cfg : PluginConfig) (now : Q) (g : Z)
    (s : ChatService) :
  _cooldown s !! g = None -> fst (check_cooldown fl cfg now g s) = true.
Proof.
  intros H. unfold check_cooldown.
  now rewrite chat_ensure_initialized_cooldown, H.
Qed.

Lemma check_cooldown_after_set (fl : Q -> Q) (cfg : PluginConfig) (t0 now : Q)
    (g : Z) (s : ChatService) :
  fst (check_cooldown fl cfg now g (set_cooldown t0 g s)) =
    Py.Qgeb (fl (now - t0)%Q) (inject_Z (random_reply_cooldown cfg)).
Proof.
  unfold check_cooldown.
  rewrite chat_ensure_initialized_cooldown, set_cooldown_lookup.
  destruct (decide (g = g)); [reflexivity | contradiction].
Qed.

(** C5. With a positive cooldown setting (one a double represents,
    as every setting of at most 2^53 seconds is):
    [check_cooldown g] is true as long as no [set_cooldown g] has been
    made, whatever was set for other groups; right after
    [set_cooldown g], at the same clock reading, it is false, and it
    stays false while the elapsed time is below the setting, the
    elapsed time being the difference of the two readings as the code
    computes it, which is their exact difference as long as the later
    reading is at most twice the earlier; once the interval has
    elapsed it is true again. *)
Theorem cooldown_gate (fl : Q -> Q) (cfg : PluginConfig) (g : Z) :
  Py.ieee_rounding fl ->
  (0 < random_reply_cooldown cfg <= 2 ^ 53)%Z ->
  (forall calls now, Forall (fun c => snd c <> g) calls ->
     fst (check_cooldown fl cfg now g (set_cooldowns calls new)) = true) /\
  (forall s t0, fst (check_cooldown fl cfg t0 g (set_cooldown t0 g s)) = false) /\
  (forall s t0 now, (fl (now - t0) < inject_Z (random_reply_cooldown cfg))%Q ->
     fst (check_cooldown fl cfg now g (set_cooldown t0 g s)) = false) /\
  (forall s t0 now, (fl t0 == t0)%Q -> (fl now == now)%Q ->
     (t0 <= now)%Q -> (now <= 2 * t0)%Q ->
     (now - t0 < inject_Z (random_reply_cooldown cfg))%Q ->
     fst (check_cooldown fl cfg now g (set_cooldown t0 g s)) = false) /\
  (forall s t0 now, (inject_Z (random_reply_cooldown cfg) <= now - t0)%Q ->
     fst (check_cooldown fl cfg now g (set_cooldown t0 g s)) = true).
Proof.
  intros I [Hpos Hmax].
  assert (HposQ : (0 < inject_Z (random_reply_cooldown cfg))%Q).
  { change 0%Q with (inject_Z 0). rewrite <- Zlt_Qlt. exact Hpos. }
  split; [|split; [|split; [|split]]].
  - intros calls now Hall. apply check_cooldown_unset.
    apply set_cooldowns_other; [exact Hall | reflexivity].
  - intros s t0. rewrite check_cooldown_after_set. apply Qgeb_false.
    rewrite (fl_sub_diag fl I t0 t0) by reflexivity. exact HposQ.
  - intros s t0 now H. rewrite check_cooldown_after_set. apply Qgeb_false, H.
  - intros s t0 now Ht0 Hnow Hle Hle2 H. rewrite check_cooldown_after_set.
    apply Qgeb_false.
    pose proof (Py.fl_sterbenz fl I now t0 Hnow Ht0 Hle Hle2) as E. lra.
  - intros s t0 now H. rewrite check_cooldown_after_set. apply Qgeb_true.
    rewrite <- (Py.fl_integer fl I (random_reply_cooldown cfg)) by lia.
    apply (Py.fl_monotone fl I), H.
Qed.

End CooldownFacts.

Lemma cooldown_gate_witness :
  (0 < Config.random_reply_cooldown Config.defaults <= 2 ^ 53)%Z /\
  fst (Chat.check_cooldown Py.round_double Config.defaults 5 1
         (Chat.set_cooldowns [(1%Q, 2%Z); (3%Q, 4%Z)] Chat.new)) = true /\
  fst (Chat.check_cooldown Py.round_double Config.defaults 5 1
         (Chat.set_cooldown 5 1 Chat.new)) = false /\
  fst (Chat.check_cooldown Py.round_double Config.defaults 35 1
         (Chat.set_cooldown 5 1 Chat.new)) = true.
Proof.
  assert (H : (0 < Config.random_reply_cooldown Config.defaults <= 2 ^ 53)%Z)
    by (simpl; lia).
  split; [exact H|].
  destruct (cooldown_gate Py.round_double Config.defaults 1 round_double_ieee H)
    as (A & B & _ & _ & D).
  split; [|split].
  - apply (A [(1%Q, 2%Z); (3%Q, 4%Z)] 5%Q).
    repeat constructor; simpl; lia.
  - apply B.
  - apply D. unfold Qle; simpl; lia.
Defined.

(** The doubles nearest to 0.7 and 30.7 are less than thirty seconds
    apart, and their difference as the code computes it is thirty:
    the gate opens. *)
Example cooldown_rounds_up :
  let t0 := Py.round_double (7 # 10) in
  let now := Py.round_double (307 # 10) in
  (now - t0 < 30)%Q /\ (Py.round_double (now - t0) == 30)%Q /\
  fst (Chat.check_cooldown Py.round_double Config.defaults now 1
         (Chat.set_cooldown t0 1 Chat.new)) = true.
Proof. vm_compute. repeat split. Qed.

(** ** The chat service: bounded history *)

Section HistoryFacts.
Import Py Config Chat.

(** [append] on a deque within its bound keeps the newest entries:
    nothing is dropped while there is room, the oldest entry is
    dropped when the deque is full. *)
Lemma deque_append_items (x : ChatMessage) (d : deque) :
  (length (items d) <= maxlen d)%nat ->
  items (deque_append x d) =
    drop (length (items d) + 1 - maxlen d) (items d ++ [x])%list.
Proof.
  intros Hlen. unfold deque_append. cbn [items].
  rewrite length_app. cbn [length].
  destruct (Nat.ltb_spec (maxlen d) (length (items d) + 1)) as [Hlt|Hge].
  - replace (length (items d) + 1 - maxlen d)%nat with 1%nat by lia. reflexivity.
  - replace (length (items d) + 1 - maxlen d)%nat with 0%nat by lia. reflexivity.
Qed.

Lemma deque_append_bound (x : ChatMessage) (d : deque) :
  (length (items d) <= maxlen d)%nat ->
  (length (items (deque_append x d)) <= maxlen d)%nat.
Proof.
  intros Hlen. rewrite deque_append_items by exact Hlen.
  rewrite length_drop, length_app. cbn [length]. lia.
Qed.

Lemma deque_append_maxlen (x : ChatMessage) (d : deque) :
  maxlen (deque_append x d) = maxlen d.
Proof. reflexivity. Qed.

(** A full deque loses exactly its oldest entry. *)
Lemma deque_append_full (x o : ChatMessage) (rest : list ChatMessage) (n : nat) :
  length (o :: rest) = n ->
  items (deque_append x {| maxlen := n; items := o :: rest |}) = (rest ++ [x])%list.
Proof.
  intros Hn. unfold deque_append. cbn [items maxlen].
  rewrite length_app. cbn [length] in *.
  destruct (Nat.ltb_spec n (S (length rest) + 1)); [reflexivity | lia].
Qed.

(** After any run of appends the deque holds the newest [maxlen]
    entries of everything it was given, oldest first. *)
Lemma deque_appends_items (xs : list ChatMessage) (d : deque) :
  (length (items d) <= maxlen d)%nat ->
  let d' := foldl (fun d x => deque_append x d) d xs in
  maxlen d' = maxlen d /\
  items d' = drop (length (items d ++ xs) - maxlen d) (items d ++ xs)%list.
Proof.
  revert d. induction xs as [|x xs IH]; intros d Hlen; cbn [foldl].
  - split; [reflexivity|]. rewrite app_nil_r.
    replace (length (items d) - maxlen d)%nat with 0%nat by lia. reflexivity.
  - destruct (IH (deque_append x d) (deque_append_bound x d Hlen)) as [Hm Hi].
    cbv zeta. rewrite Hm, Hi, deque_append_maxlen. split; [reflexivity|].
    rewrite (deque_append_items x d Hlen).
    set (k := (length (items d) + 1 - maxlen d)%nat).
    assert (Hk : (k <= length (items d ++ [x])%list)%nat)
      by (rewrite length_app; cbn [length]; lia).
    rewrite <- (drop_app_le _ xs k Hk), drop_drop.
    rewrite length_drop, <- app_assoc. cbn [app].
    f_equal. rewrite !length_app in *. cbn [length] in *. lia.
Qed.

Lemma get_messages_unfold (g : Z) (limit : Z) (include_bot : bool)
    (d : deque) (s : ChatService) :
  _history s !! g = Some d ->
  let stored := if negb include_bot
                then filter (fun m => is_bot m = false) (items d) else items d in
  fst (get_messages g limit include_bot s) =
    if (limit <? Z.of_nat (length stored))%Z
    then slice_from (- limit) stored else stored.
Proof.
  intros H. unfold get_messages.
  rewrite chat_ensure_initialized_history, H. reflexivity.
Qed.

(** Whatever the limit, the messages returned are a final segment of
    the stored ones, in stored order: oldest first, newest last. *)
Lemma get_messages_suffix (g : Z) (limit : Z) (include_bot : bool)
    (d : deque) (s : ChatService) :
  _history s !! g = Some d ->
  exists older,
    (if negb include_bot
     then filter (fun m => is_bot m = false) (items d) else items d)
    = (older ++ fst (get_messages g limit include_bot s))%list.
Proof.
  intros H. rewrite (get_messages_unfold g limit include_bot d s H). cbv zeta.
  set (stored := if negb include_bot then _ else _).
  destruct (limit <? Z.of_nat (length stored))%Z.
  - unfold slice_from. eexists. symmetry. apply take_drop.
  - exists []. reflexivity.
Qed.

(** For a positive limit [n] at most [min n stored] messages come
    back. *)
Lemma get_messages_bound (g : Z) (limit : Z) (include_bot : bool)
    (d : deque) (s : ChatService) :
  _history s !! g = Some d -> (0 < limit)%Z ->
  (Z.of_nat (length (fst (get_messages g limit include_bot s)))
     <= Z.min limit (Z.of_nat (length (items d))))%Z.
Proof.
  intros H Hpos. rewrite (get_messages_unfold g limit include_bot d s H). cbv zeta.
  set (stored := if negb include_bot then _ else _).
  assert (Hst : (length stored <= length (items d))%nat).
  { subst stored. destruct include_bot; simpl; [lia | apply length_filter]. }
  destruct (Z.ltb_spec limit (Z.of_nat (length stored))) as [Hlt|Hge].
  - unfold slice_from.
    destruct (Z.ltb_spec (- limit) 0) as [_|Hn]; [|lia].
    rewrite length_drop. lia.
  - lia.
Qed.

(** For the limit 0 every stored message comes back. *)
Lemma get_messages_zero (g : Z) (d : deque) (s : ChatService) :
  _history s !! g = Some d ->
  fst (get_messages g 0 true s) = items d.
Proof.
  intros H. rewrite (get_messages_unfold g 0 true d s H). cbv zeta. simpl negb.
  cbv iota. destruct (0 <? Z.of_nat (length (items d)))%Z; [|reflexivity].
  unfold slice_from. change (- 0)%Z with 0%Z. cbn [Z.ltb Z.compare].
  rewrite Z.min_l by lia. reflexivity.
Qed.

(** [record_message] appends the cleaned entry to the deque of the
    group, creating the deque with the configured bound if the group
    had none. *)
Lemma record_message_history (clean : string -> string) (cfg : PluginConfig)
    (g : Z) (m : ChatMessage) (s : ChatService) :
  (0 <= max_history_per_group cfg)%Z ->
  let d := default {| maxlen := Z.to_nat (max_history_per_group cfg); items := [] |}
             (_history s !! g) in
  let r := record_message clean cfg (timestamp m) g (user_id m) (username m)
             (message m) (is_bot m) s in
  fst r = Ret tt /\
  _history (snd r) !! g = Some (deque_append (stored_entry clean m) d).
Proof.
  intros Hcap d r. subst d r. unfold record_message, _get_or_create_history.
  rewrite chat_ensure_initialized_history.
  destruct (_history s !! g) as [d|] eqn:Hg; cbn [default].
  - cbn [fst snd _history]. split; [reflexivity|].
    rewrite lookup_insert_eq. reflexivity.
  - unfold deque_new.
    destruct (Z.ltb_spec (max_history_per_group cfg) 0) as [Hneg|_]; [lia|].
    cbn [fst snd _history]. split; [reflexivity|].
    rewrite lookup_insert_eq. reflexivity.
Qed.

Lemma record_all_appends (clean : string -> string) (cfg : PluginConfig)
    (g : Z) (msgs : list ChatMessage) (d : deque) (s : ChatService) :
  (0 <= max_history_per_group cfg)%Z ->
  _history s !! g = Some d ->
  _history (record_all clean cfg g msgs s) !! g =
    Some (foldl (fun d x => deque_append x d) d (map (stored_entry clean) msgs)).
Proof.
  intros Hcap. unfold record_all. revert d s.
  induction msgs as [|m msgs IH]; intros d s Hd; cbn [foldl map]; [exact Hd|].
  apply IH.
  destruct (record_message_history clean cfg g m s Hcap) as [_ Hh].
  rewrite Hh, Hd. reflexivity.
Qed.

(** FIFO bound of the history.  Recording the messages [m :: msgs]
    for a group that had no history leaves, with capacity [n], the
    newest [n] of them, oldest first: the ones recorded earliest are
    the ones evicted. *)
Lemma record_all_fifo (clean : string -> string) (cfg : PluginConfig)
    (g : Z) (m : ChatMessage) (msgs : list ChatMessage) (s : ChatService) :
  (0 <= max_history_per_group cfg)%Z ->
  _history s !! g = None ->
  let n := Z.to_nat (max_history_per_group cfg) in
  let all := map (stored_entry clean) (m :: msgs) in
  exists d, _history (record_all clean cfg g (m :: msgs) s) !! g = Some d /\
            maxlen d = n /\
            items d = drop (length all - n) all.
Proof.
  intros Hcap Hg n all.
  set (d0 := {| maxlen := n; items := [] |}).
  assert (H0 : (length (items d0) <= maxlen d0)%nat) by (simpl; lia).
  destruct (deque_appends_items all d0 H0) as [Hm Hi].
  exists (foldl (fun d x => deque_append x d) d0 all). repeat split.
  - unfold record_all. cbn [foldl].
    destruct (record_message_history clean cfg g m s Hcap) as [_ Hh].
    rewrite Hg in Hh. cbn [default] in Hh.
    fold (record_all clean cfg g msgs
            (snd (record_message clean cfg (timestamp m) g (user_id m)
                    (username m) (message m) (is_bot m) s))).
    rewrite (record_all_appends clean cfg g msgs _ _ Hcap Hh).
    reflexivity.
  - exact Hm.
  - exact Hi.
Qed.

End HistoryFacts.

(** C6, at the input where the code departs from it: two messages
    are recorded for group 1 and [get_messages] is called with limit
    0.  Both messages come back, more than [min 0 2]. *)
Theorem get_messages_limit_zero_returns_all :
  let s := Chat.record_all (fun m => m) Config.defaults 1
             [ {| Chat.timestamp := 10; Chat.user_id := 7; Chat.username := "a";
                  Chat.message := "first"; Chat.is_bot := false |};
               {| Chat.timestamp := 11; Chat.user_id := 8; Chat.username := "b";
                  Chat.message := "second"; Chat.is_bot := false |} ] Chat.new in
  map Chat.message (fst (Chat.get_messages 1 0 false s)) = ["first"; "second"] /\
  (Z.min 0 2 < Z.of_nat (length (fst (Chat.get_messages 1 0 false s))))%Z.
Proof. vm_compute. auto. Qed.

(** ** The command dispatch wrapper *)

Section DispatchFacts.
Import Py Dispatch.

Variable strip : string -> string.

(** C7. For a plugin registered with a matcher and an event whose
    sender [is_banned], the handler hands the fixed rejection message
    to the matcher and stops with the matcher's [FinishedException]:
    that message is the only action of the run, so the feature switch
    is not evaluated and [handle] is not entered; the task-local
    current event is restored. *)
Theorem banned_sender_rejected (plugin : Plugin) (event : MessageEvent)
    (args : string) (w : world) :
  _matcher plugin = true ->
  fst (Ban.is_banned (ban_file w) (user_id event) (ban_service w)) = true ->
  let r := handler strip plugin event args w in
  let actions := drop (length (trace w)) (trace (snd r)) in
  fst r = Raise FinishedException /\
  trace (snd r) = (trace w ++ actions)%list /\
  actions = [Sent banned_message] /\
  (FeatureChecked ∉ actions) /\
  (forall ev a, Handled ev a ∉ actions) /\
  current_event (snd r) = current_event w.
Proof.
  intros Hm Hb r actions.
  assert (E : r = (Raise FinishedException,
                   {| ban_service := snd (Ban.is_banned (ban_file w) (user_id event)
                                            (ban_service w));
                      ban_file := ban_file w; config := config w;
                      current_event := current_event w;
                      trace := (trace w ++ [Sent banned_message])%list |})).
  { subst r. unfold handler, bind, try_finally, context_set, _check_permission.
    cbn [ban_file ban_service current_event trace config].
    destruct (Ban.is_banned (ban_file w) (user_id event) (ban_service w))
      as [banned bs] eqn:Eb.
    cbn [fst snd] in *. subst banned. cbn [negb].
    unfold finish. rewrite Hm. reflexivity. }
  assert (A : actions = [Sent banned_message]).
  { subst actions. rewrite E. cbn [snd trace]. now rewrite drop_app_length. }
  rewrite A, E. cbn [fst snd trace current_event]. repeat split.
  - intros H%list_elem_of_singleton. discriminate.
  - intros ev a H%list_elem_of_singleton. discriminate.
Qed.

(** The same wrapper with a sender who is not banned and no feature
    name: the switch is evaluated and [handle] is entered with the
    stripped argument. *)
Lemma allowed_sender_dispatched (plugin : Plugin) (event : MessageEvent)
    (args : string) (w : world) :
  fst (Ban.is_banned (ban_file w) (user_id event) (ban_service w)) = false ->
  feature_name plugin = None ->
  handle plugin = (fun _ _ => ret tt) ->
  let r := handler strip plugin event args w in
  fst r = Ret tt /\
  trace (snd r) = (trace w ++ [FeatureChecked; Handled event (strip args)])%list.
Proof.
  intros Hb Hf Hh r. subst r.
  unfold handler, bind, try_finally, try_except, context_set, _check_permission,
    _check_feature, call_handle, bind, emit.
  cbn [ban_file ban_service current_event trace config].
  destruct (Ban.is_banned (ban_file w) (user_id event) (ban_service w))
    as [banned bs] eqn:Eb.
  cbn [fst snd] in *. subst banned. cbn [negb].
  rewrite Hf, Hh. cbn. rewrite <- app_assoc. auto.
Qed.

End DispatchFacts.

Lemma banned_sender_rejected_witness :
  let plugin := {| Dispatch.feature_name := Some "math"; Dispatch._matcher := true;
                   Dispatch.handle := fun _ _ => Dispatch.ret tt;
                   Dispatch.handle_error := fun _ => Dispatch.ret tt |} in
  let event := {| Dispatch.user_id := 7; Dispatch.group_id := Some 1%Z |} in
  let w := {| Dispatch.ban_service := Ban.new; Dispatch.ban_file := [7%Z];
              Dispatch.config := Config.defaults;
              Dispatch.current_event := None; Dispatch.trace := [] |} in
  Dispatch._matcher plugin = true /\
  fst (Ban.is_banned (Dispatch.ban_file w) (Dispatch.user_id event)
         (Dispatch.ban_service w)) = true /\
  fst (Dispatch.handler (fun a => a) plugin event "x" w)
    = Py.Raise Py.FinishedException.
Proof.
  intros plugin event w.
  assert (Hm : Dispatch._matcher plugin = true) by reflexivity.
  assert (Hb : fst (Ban.is_banned (Dispatch.ban_file w) (Dispatch.user_id event)
                      (Dispatch.ban_service w)) = true) by (vm_compute; reflexivity).
  split; [exact Hm|]. split; [exact Hb|].
  exact (proj1 (banned_sender_rejected (fun a => a) plugin event "x" w Hm Hb)).
Defined.

(** * Further properties of the services *)

(** ** Tokens *)

Section TokenMore.
Import Py Token.

Lemma has_valid_token_true_iff (now : Q) (u : Z) (s : gmap Z TokenInfo) :
  has_valid_token now u s = true <->
  exists info, s !! u = Some info /\ used info = false /\ (now <= expire_time info)%Q.
Proof.
  unfold has_valid_token. destruct (s !! u) as [info|].
  - destruct (used info) eqn:Hu.
    + split; [discriminate | intros (i & [= <-] & H & _); congruence].
    + destruct (Qgtb now (expire_time info)) eqn:Hq; unfold Qgtb in Hq.
      * split; [discriminate|]. intros (i & [= <-] & _ & H).
        apply Qle_bool_iff in H. rewrite H in Hq. discriminate.
      * split; [|reflexivity]. intros _. exists info. repeat split; auto.
        apply Qle_bool_iff. now apply negb_false_iff in Hq.
  - split; [discriminate | intros (i & H & _); discriminate].
Qed.

(** X1. [verify_token] returns [True] exactly when the user holds an
    unused, unexpired record whose token is the one presented (a
    token being ASCII); in particular it never returns [True], and
    never raises, when [has_valid_token] is false. *)
Theorem verify_token_true_iff (now : Q) (u : Z) (t : string) (s : gmap Z TokenInfo) :
  (fst (verify_token now u t s) = Ret true <->
   has_valid_token now u s = true /\
   exists info, s !! u = Some info /\ token info = t /\ is_ascii t = true) /\
  (has_valid_token now u s = false -> fst (verify_token now u t s) = Ret false).
Proof.
  unfold verify_token, has_valid_token.
  destruct (s !! u) as [info|]; [|split; [split|]; simpl; try easy;
                                   intros [_ (i & H & _)]; discriminate].
  destruct (used info); [split; [split|]; simpl; try easy; intros [H _]; discriminate|].
  destruct (Qgtb now (expire_time info));
    [split; [split|]; simpl; try easy; intros [H _]; discriminate|].
  split; [|discriminate].
  unfold compare_digest.
  destruct (is_ascii (token info)) eqn:Ha, (is_ascii t) eqn:Hb; simpl.
  - case_bool_decide as Heq; simpl.
    + split; [intros _; split; [reflexivity|]; eauto | reflexivity].
    + split; [discriminate | intros [_ (i & [= <-] & Ht & _)]; contradiction].
  - split; [discriminate | intros [_ (i & _ & _ & H)]; discriminate].
  - split; [discriminate|]. intros [_ (i & [= <-] & Ht & H)]. congruence.
  - split; [discriminate | intros [_ (i & _ & _ & H)]; discriminate].
Qed.

(** X2. Issuing a new token invalidates the one issued before, used
    or not: after two [generate_token] calls for a user, the first
    token (when the two differ) is refused at every clock reading,
    and the second is accepted within its window (up to the expiry
    time the code computed, so up to the exact sum,
    [within_window_rounded]). *)
Theorem regenerate_invalidates_old (fl : Q -> Q) (ur1 ur2 : nat -> list byte)
    (now1 now2 now3 : Q) (u : Z) (s : gmap Z TokenInfo) :
  let t1 := fst (generate_token fl ur1 now1 u s) in
  let s1 := snd (generate_token fl ur1 now1 u s) in
  let t2 := fst (generate_token fl ur2 now2 u s1) in
  let s2 := snd (generate_token fl ur2 now2 u s1) in
  t1 <> t2 ->
  fst (verify_token now3 u t1 s2) = Ret false /\
  ((now3 <= fl (now2 + 300))%Q -> fst (verify_token now3 u t2 s2) = Ret true).
Proof.
  intros t1 s1 t2 s2 Hne.
  pose proof (generate_token_stored fl ur2 now2 u s1) as Hst. fold s2 t2 in Hst.
  split.
  - destruct (Qlt_le_dec (fl (now2 + 300)%Q) now3) as [Hlt|Hle].
    + rewrite (verify_token_expired now3 u t1 _ s2 Hst); [reflexivity|exact Hlt].
    + rewrite (verify_token_mismatch_keeps now3 u t1 _ s2 Hst); simpl; auto.
      * apply generate_token_ascii.
      * apply generate_token_ascii.
  - intros Hle.
    pose proof (verify_token_accepts now3 u _ s2 Hst) as E.
    cbn [token used expire_time] in E. rewrite E; auto.
    apply generate_token_ascii.
Qed.

(** X3. The records of other users are not touched by
    [generate_token], [verify_token] or [revoke_token] for a user. *)
Theorem token_operations_isolated (fl : Q -> Q) (ur : nat -> list byte) (now : Q)
    (u v : Z) (t : string) (s : gmap Z TokenInfo) :
  v <> u ->
  snd (generate_token fl ur now u s) !! v = s !! v /\
  snd (verify_token now u t s) !! v = s !! v /\
  snd (revoke_token u s) !! v = s !! v.
Proof.
  intros Hne. repeat split.
  - unfold generate_token. simpl. rewrite lookup_insert_ne by congruence.
    case_bool_decide; [apply lookup_delete_ne; congruence | reflexivity].
  - unfold verify_token. destruct (s !! u) as [info|]; [|reflexivity].
    destruct (used info); [apply lookup_delete_ne; congruence|].
    destruct (Qgtb now (expire_time info)); [apply lookup_delete_ne; congruence|].
    destruct (compare_digest (token info) t) as [[|]|]; simpl; try reflexivity.
    apply lookup_delete_ne; congruence.
  - unfold revoke_token. case_bool_decide; simpl; [|reflexivity].
    apply lookup_delete_ne; congruence.
Qed.

(** X4. [revoke_token] reports whether the user had a record; after
    it the user has no valid token, every token is refused without a
    change of state, and a second [revoke_token] returns [False]. *)
Theorem revoke_token_spec (now : Q) (u : Z) (t : string) (s : gmap Z TokenInfo) :
  let s' := snd (revoke_token u s) in
  (fst (revoke_token u s) = true <-> is_Some (s !! u)) /\
  has_valid_token now u s' = false /\
  verify_token now u t s' = (Ret false, s') /\
  revoke_token u s' = (false, s').
Proof.
  intros s'.
  assert (Hnone : s' !! u = None).
  { subst s'. unfold revoke_token. case_bool_decide as H; simpl.
    - apply lookup_delete_eq.
    - destruct (s !! u) eqn:E; [exfalso; apply H; eauto | reflexivity]. }
  repeat split.
  - unfold revoke_token. case_bool_decide; simpl; [auto | discriminate].
  - unfold revoke_token. case_bool_decide; simpl; [reflexivity | contradiction].
  - unfold has_valid_token. now rewrite Hnone.
  - apply verify_token_no_record, Hnone.
  - unfold revoke_token. rewrite Hnone.
    rewrite bool_decide_eq_false_2; [reflexivity | intros [? ?]; discriminate].
Qed.

End TokenMore.

Lemma int_of_pos_bounds (q : Q) :
  (0 < Py.int_of q)%Z ->
  (inject_Z (Py.int_of q) <= q)%Q /\ (q < inject_Z (Py.int_of q + 1))%Q.
Proof.
  destruct q as [n d]. unfold Py.int_of, Qle, Qlt. cbn [Qnum Qden inject_Z].
  intros Hpos.
  assert (Hn : (0 <= n)%Z).
  { destruct (Z.lt_ge_cases n 0) as [Hneg|]; [|assumption].
    replace n with (- (- n))%Z in Hpos by lia.
    rewrite Z.quot_opp_l in Hpos by lia.
    pose proof (Z.quot_pos (- n) (Z.pos d)). lia. }
  rewrite Z.quot_div_nonneg in * by lia.
  pose proof (Z.mul_div_le n (Z.pos d)).
  pose proof (Z.mul_succ_div_gt n (Z.pos d)). lia.
Qed.

Lemma int_of_small (q : Q) : (0 <= q)%Q -> (q < 1)%Q -> Py.int_of q = 0%Z.
Proof.
  destruct q as [n d]. unfold Py.int_of, Qle, Qlt. cbn [Qnum Qden].
  intros H0 H1. apply Z.quot_small. lia.
Qed.

Section TokenRemaining.
Import Py Token.

Variable fl : Q -> Q.
Hypothesis ieee : ieee_rounding fl.

(** X5. When [get_token_remaining_time] returns a number of seconds
    [r], the user holds a valid token, [r] is at least 1 and it is
    the time left to the expiry, rounded down: the time left as the
    code computes it, which is the exact difference of the expiry
    time and the reading as long as the expiry time is at most twice
    the reading. *)
Theorem remaining_time_some (now : Q) (u : Z) (r : Z) (s : gmap Z TokenInfo) :
  get_token_remaining_time fl now u s = Some r ->
  (1 <= r)%Z /\
  has_valid_token now u s = true /\
  exists info, s !! u = Some info /\
    (inject_Z r <= fl (expire_time info - now))%Q /\
    (fl (expire_time info - now) < inject_Z (r + 1))%Q /\
    ((fl now == now)%Q -> (fl (expire_time info) == expire_time info)%Q ->
     (expire_time info <= 2 * now)%Q ->
     (inject_Z r <= expire_time info - now)%Q /\
     (expire_time info - now < inject_Z (r + 1))%Q).
Proof.
  unfold get_token_remaining_time. intros H.
  destruct (s !! u) as [info|] eqn:Hs; [|discriminate].
  destruct (used info) eqn:Hu; [discriminate|].
  destruct (Z.leb_spec (int_of (fl (expire_time info - now)%Q)) 0) as [|Hpos];
    [discriminate|].
  injection H as <-.
  destruct (int_of_pos_bounds _ Hpos) as [Hlo Hhi].
  assert (Hle : (now <= expire_time info)%Q).
  { assert (Hr : (inject_Z 1 <= inject_Z (int_of (fl (expire_time info - now))))%Q)
      by (rewrite <- Zle_Qle; lia).
    change (inject_Z 1) with 1%Q in Hr.
    destruct (Qlt_le_dec (expire_time info) now) as [Hlt|Hle]; [|exact Hle].
    assert (Hn : (fl (expire_time info - now) <= 0)%Q).
    { rewrite <- (fl_zero fl ieee). apply (fl_monotone fl ieee). lra. }
    lra. }
  split; [lia|]. split.
  - apply has_valid_token_true_iff. exists info. repeat split; auto.
  - exists info. split; [reflexivity|]. split; [exact Hlo|]. split; [exact Hhi|].
    intros Hnow He Hle2.
    pose proof (fl_sterbenz fl ieee _ _ He Hnow Hle Hle2) as E.
    split; lra.
Qed.

(** X6. In the last second before the expiry the two queries
    disagree: the token is still valid ([has_valid_token] is true),
    but [get_token_remaining_time] returns [None], the time left
    being below 1: the time left as the code computes it, which is
    the exact difference for a reading of one second or more. *)
Theorem remaining_time_last_second (now : Q) (u : Z) (info : TokenInfo)
    (s : gmap Z TokenInfo) :
  s !! u = Some info -> used info = false ->
  (0 <= expire_time info - now)%Q ->
  has_valid_token now u s = true /\
  ((fl (expire_time info - now) < 1)%Q ->
   get_token_remaining_time fl now u s = None) /\
  ((expire_time info - now < 1)%Q ->
   (fl now == now)%Q -> (fl (expire_time info) == expire_time info)%Q ->
   (1 <= now)%Q ->
   get_token_remaining_time fl now u s = None).
Proof.
  intros Hs Hu H0.
  assert (Hnone : (fl (expire_time info - now) < 1)%Q ->
                  get_token_remaining_time fl now u s = None).
  { intros H1. unfold get_token_remaining_time.
    rewrite Hs, Hu, int_of_small; [reflexivity| |exact H1].
    rewrite <- (fl_zero fl ieee). apply (fl_monotone fl ieee), H0. }
  split; [|split].
  - apply has_valid_token_true_iff. exists info. repeat split; auto. lra.
  - exact Hnone.
  - intros H1 Hnow He Hone. apply Hnone.
    assert (E : (fl (expire_time info - now) == expire_time info - now)%Q)
      by (apply (fl_sterbenz fl ieee _ _ He Hnow); lra).
    lra.
Qed.

End TokenRemaining.

Lemma remaining_time_some_witness :
  Token.get_token_remaining_time Py.round_double 1000
    42 (snd (Token.generate_token Py.round_double (fun n => repeat x2a n) 1000 42 ∅))
    = Some 300%Z /\
  (1 <= 300)%Z.
Proof.
  assert (H : Token.get_token_remaining_time Py.round_double 1000 42
                (snd (Token.generate_token Py.round_double
                        (fun n => repeat x2a n) 1000 42 ∅))
              = Some 300%Z) by (vm_compute; reflexivity).
  split; [exact H|].
  exact (proj1 (remaining_time_some Py.round_double round_double_ieee
                  1000 42 300 _ H)).
Defined.

Lemma remaining_time_last_second_witness :
  let s := snd (Token.generate_token Py.round_double
                  (fun n => repeat x2a n) 1000 42 ∅) in
  Token.has_valid_token (12995 # 10) 42 s = true /\
  Token.get_token_remaining_time Py.round_double (12995 # 10) 42 s = None.
Proof.
  intros s.
  destruct (remaining_time_last_second Py.round_double round_double_ieee
              (12995 # 10) 42
              {| Token.token :=
                   Py.token_urlsafe (fun n => repeat x2a n) Token.TOKEN_BYTES;
                 Token.expire_time :=
                   Py.round_double (1000 + inject_Z Token.TOKEN_EXPIRE_SECONDS);
                 Token.used := false |} s) as (A & B & _).
  - vm_compute. reflexivity.
  - reflexivity.
  - vm_compute. discriminate.
  - split; [exact A|]. apply B. vm_compute. reflexivity.
Defined.

(** A token issued at the double nearest to 0.7 and queried at once:
    the time left as the code computes it is the full 300 seconds,
    the exact difference of the stored expiry time and the reading
    being just below. *)
Example remaining_time_rounds_up :
  let now := Py.round_double (7 # 10) in
  let s := snd (Token.generate_token Py.round_double (fun n => repeat x2a n) now 42 ∅) in
  Token.get_token_remaining_time Py.round_double now 42 s = Some 300%Z /\
  (Py.round_double (now + 300) - now < 300)%Q.
Proof. vm_compute. split; reflexivity. Qed.

(** ** Sweeping expired tokens *)

Lemma foldl_delete_lookup {A} (ks : list Z) (m : gmap Z A) (k : Z) :
  foldl (fun m u => delete u m) m ks !! k =
    if bool_decide (k ∈ ks) then None else m !! k.
Proof.
  revert m. induction ks as [|k0 ks IH]; intros m; cbn [foldl].
  - rewrite bool_decide_eq_false_2; [reflexivity | apply not_elem_of_nil].
  - rewrite IH. destruct (decide (k = k0)) as [->|Hne].
    + rewrite lookup_delete_eq.
      rewrite (bool_decide_eq_true_2 (k0 ∈ k0 :: ks)) by apply list_elem_of_here.
      now case_bool_decide.
    + rewrite lookup_delete_ne by congruence.
      case_bool_decide as H1; case_bool_decide as H2; try reflexivity.
      * exfalso. apply H2. now apply list_elem_of_further.
      * exfalso. apply elem_of_cons in H2 as [?|?]; [congruence|contradiction].
Qed.

Lemma length_filter_split {A} (P : A -> Prop) `{!forall x, Decision (P x)}
    (l : list A) :
  (length (filter P l) + length (filter (fun x => ~ P x) l) = length l)%nat.
Proof.
  induction l as [|x l IH]; [reflexivity|].
  rewrite !filter_cons. destruct (decide (P x)), (decide (~ P x));
    cbn [length]; try lia; contradiction.
Qed.

Lemma filter_none {A} (P : A -> Prop) `{!forall x, Decision (P x)} (l : list A) :
  Forall (fun x => ~ P x) l -> filter P l = [].
Proof.
  induction 1 as [|x l Hx _ IH]; [reflexivity|].
  rewrite filter_cons. destruct (decide (P x)); [contradiction | exact IH].
Qed.

Section TokenCleanup.
Import Py Token.

Lemma expired_users_elem (now : Q) (s : gmap Z TokenInfo) (u : Z) :
  u ∈ (filter (fun kv => Qgtb now (expire_time (snd kv)) = true) (map_to_list s)).*1
  <-> exists info, s !! u = Some info /\ Qgtb now (expire_time info) = true.
Proof.
  rewrite list_elem_of_fmap. split.
  - intros ([k info] & -> & [Hq Hin%elem_of_map_to_list]%list_elem_of_filter).
    exists info. auto.
  - intros (info & Hs & Hq). exists (u, info). split; [reflexivity|].
    apply list_elem_of_filter. split; [exact Hq | now apply elem_of_map_to_list].
Qed.

Lemma cleanup_expired_lookup (now : Q) (s : gmap Z TokenInfo) (u : Z) :
  snd (cleanup_expired now s) !! u =
    match s !! u with
    | Some info => if Qgtb now (expire_time info) then None else Some info
    | None => None
    end.
Proof.
  unfold cleanup_expired. cbn [snd]. rewrite foldl_delete_lookup.
  case_bool_decide as Hin.
  - apply expired_users_elem in Hin as (info & -> & ->). reflexivity.
  - destruct (s !! u) as [info|] eqn:Hs; [|reflexivity].
    destruct (Qgtb now (expire_time info)) eqn:Hq; [|reflexivity].
    exfalso. apply Hin, expired_users_elem. eauto.
Qed.

Lemma cleanup_expired_filter (now : Q) (s : gmap Z TokenInfo) :
  snd (cleanup_expired now s) =
    filter (fun kv => ~ Qgtb now (expire_time (snd kv)) = true) s.
Proof.
  apply map_eq. intros u. rewrite cleanup_expired_lookup.
  destruct (s !! u) as [info|] eqn:Hs.
  - destruct (Qgtb now (expire_time info)) eqn:Hq.
    + symmetry. apply map_lookup_filter_None. right. intros x Hx.
      rewrite Hs in Hx. injection Hx as <-. simpl. rewrite Hq. auto.
    + symmetry. apply map_lookup_filter_Some. split; [exact Hs|].
      simpl. rewrite Hq. discriminate.
  - symmetry. apply map_lookup_filter_None. left. exact Hs.
Qed.

(** X7. [cleanup_expired] deletes exactly the records past their
    expiry time and keeps every other record as it is; the number it
    returns is the number of records deleted, and a second sweep at
    the same clock reading finds nothing. *)
Theorem cleanup_expired_spec (now : Q) (s : gmap Z TokenInfo) :
  let s' := snd (cleanup_expired now s) in
  (forall u, s' !! u =
     match s !! u with
     | Some info => if Qgtb now (expire_time info) then None else Some info
     | None => None
     end) /\
  (fst (cleanup_expired now s) + size s' = size s)%nat /\
  cleanup_expired now s' = (0%nat, s').
Proof.
  intros s'. split; [intros u; apply cleanup_expired_lookup|]. split.
  - subst s'. rewrite cleanup_expired_filter.
    unfold cleanup_expired. cbn [fst]. rewrite length_fmap.
    rewrite map_filter_alt, map_size_list_to_map.
    + rewrite <- (length_map_to_list s). apply length_filter_split.
    + apply (sublist_NoDup _ _ (NoDup_fst_map_to_list s)).
      apply fmap_sublist, sublist_filter.
  - assert (Hnil : filter (fun kv => Qgtb now (expire_time (snd kv)) = true)
                     (map_to_list s') = []).
    { apply filter_none, Forall_forall. intros [k info] Hin%elem_of_map_to_list.
      subst s'. rewrite cleanup_expired_lookup in Hin.
      destruct (s !! k) as [i|]; [|discriminate].
      destruct (Qgtb now (expire_time i)) eqn:Hq; [discriminate|].
      injection Hin as <-. simpl. rewrite Hq. discriminate. }
    unfold cleanup_expired. rewrite Hnil. reflexivity.
Qed.

End TokenCleanup.

(** ** The ban list, further *)

Section BanMore.
Import Ban.

Lemma ban_banned_users (loaded : list Z) (io : write_outcome) (x : Z)
    (s : BanService) :
  _banned_users (snd (ban loaded io x s)) =
    {[x]} ∪ _banned_users (ensure_initialized loaded s).
Proof.
  unfold ban. case_bool_decide as Hin.
  - cbn [snd]. apply set_eq. intros y.
    rewrite elem_of_union, elem_of_singleton. split; [auto|].
    intros [->|?]; assumption.
  - destruct (Result.is_success _); reflexivity.
Qed.

Lemma unban_banned_users (loaded : list Z) (io : write_outcome) (x : Z)
    (s : BanService) :
  _banned_users (snd (unban loaded io x s)) =
    _banned_users (ensure_initialized loaded s) ∖ {[x]}.
Proof.
  unfold unban. case_bool_decide as Hin; cbn [negb].
  - destruct (Result.is_success _); reflexivity.
  - cbn [snd]. apply set_eq. intros y.
    rewrite elem_of_difference, elem_of_singleton. split.
    + intros Hy. split; [exact Hy | congruence].
    + intros [Hy _]. exact Hy.
Qed.

(** X8. [unban] is no more atomic than [ban]: when the user is
    banned and the write of the ban file fails, [unban] returns a
    failure, yet the user has been removed from the set in memory. *)
Theorem unban_failure_still_unbans (l1 l2 : list Z) (e : string) (x : Z)
    (s : BanService) :
  fst (is_banned l1 x s) = true ->
  let r := unban l1 (WriteError e) x s in
  Result.is_success (fst r) = false /\
  fst (is_banned l2 x (snd r)) = false.
Proof.
  intros H r. subst r. split.
  - unfold is_banned in H. unfold unban. simpl in *. rewrite H. reflexivity.
  - rewrite is_banned_initialized by apply unban_initialized. simpl.
    apply bool_decide_eq_false_2, unban_not_member.
Qed.

(** X9. For a user who is not banned, [ban] followed by [unban]
    (both written successfully) reports success with [True] twice
    and leaves the banned set exactly as it was. *)
Theorem ban_unban_round_trip (l1 l2 : list Z) (x : Z) (s : BanService) :
  fst (is_banned l1 x s) = false ->
  let r1 := ban l1 WriteOk x s in
  let r2 := unban l2 WriteOk x (snd r1) in
  fst r1 = Result.success true /\
  fst r2 = Result.success true /\
  _banned_users (snd r2) = _banned_users (snd (is_banned l1 x s)).
Proof.
  intros H r1 r2. subst r2 r1.
  assert (Hnot : x ∉ _banned_users (ensure_initialized l1 s)).
  { unfold is_banned in H. simpl in H. now apply bool_decide_eq_false in H. }
  repeat split.
  - unfold ban. rewrite bool_decide_eq_false_2 by exact Hnot. reflexivity.
  - unfold unban. rewrite ensure_initialized_id by apply ban_initialized.
    rewrite bool_decide_eq_true_2 by apply ban_member. reflexivity.
  - rewrite unban_banned_users, ensure_initialized_id by apply ban_initialized.
    rewrite ban_banned_users. unfold is_banned. cbn [snd].
    apply set_eq. intros y.
    rewrite elem_of_difference, elem_of_union, !elem_of_singleton. split.
    + intros [[->|Hy] Hne]; [contradiction | exact Hy].
    + intros Hy. split; [auto | intros ->; contradiction].
Qed.

(** X10. Banning or unbanning a user, with any outcome of the write,
    does not change whether another user is banned. *)
Theorem ban_unban_other_user (l1 l2 : list Z) (io : write_outcome) (x y : Z)
    (s : BanService) :
  y <> x ->
  fst (is_banned l2 y (snd (ban l1 io x s))) = fst (is_banned l1 y s) /\
  fst (is_banned l2 y (snd (unban l1 io x s))) = fst (is_banned l1 y s).
Proof.
  intros Hne. split.
  - rewrite is_banned_initialized by apply ban_initialized. cbn [fst].
    rewrite ban_banned_users. unfold is_banned. cbn [fst].
    apply bool_decide_ext. rewrite elem_of_union, elem_of_singleton.
    split; [intros [?|?]; [contradiction | assumption] | auto].
  - rewrite is_banned_initialized by apply unban_initialized. cbn [fst].
    rewrite unban_banned_users. unfold is_banned. cbn [fst].
    apply bool_decide_ext. rewrite elem_of_difference, elem_of_singleton.
    split; [intros [? _]; assumption | auto].
Qed.

(** X11. The ban file is read once: whatever the file holds at a
    later call, a second query answers from the set loaded at the
    first.  After [reset], the next query answers from the file
    alone, so members that were never written are forgotten. *)
Theorem ban_file_loaded_once (l1 l2 : list Z) (x y : Z) (s : BanService) :
  fst (is_banned l2 y (snd (is_banned l1 x s))) = fst (is_banned l1 y s) /\
  fst (is_banned l2 y (reset s)) = bool_decide (y ∈ l2).
Proof.
  split.
  - unfold is_banned. cbn [fst snd].
    rewrite (ensure_initialized_id l2) by apply ensure_initialized_done.
    reflexivity.
  - unfold is_banned, reset, ensure_initialized, initialize. cbn.
    apply bool_decide_ext, elem_of_list_to_set.
Qed.

(** X12. [get_banned_list] lists every banned user once,
    [get_banned_count] is its length, and a [ban] raises the count by
    one exactly when the user was not banned before. *)
Theorem banned_list_and_count (l1 l2 : list Z) (io : write_outcome) (x : Z)
    (s : BanService) :
  NoDup (fst (get_banned_list l1 s)) /\
  (forall y, y ∈ fst (get_banned_list l1 s) <-> fst (is_banned l1 y s) = true) /\
  fst (get_banned_count l1 s) = length (fst (get_banned_list l1 s)) /\
  fst (get_banned_count l2 (snd (ban l1 io x s))) =
    (if fst (is_banned l1 x s) then fst (get_banned_count l1 s)
     else S (fst (get_banned_count l1 s))).
Proof.
  unfold get_banned_list, get_banned_count, is_banned. cbn [fst].
  repeat split.
  - apply NoDup_elements.
  - intros Hy. apply bool_decide_eq_true_2. now apply elem_of_elements in Hy.
  - intros Hy. apply elem_of_elements. now apply bool_decide_eq_true in Hy.
  - rewrite (ensure_initialized_id l2) by apply ban_initialized.
    rewrite ban_banned_users. case_bool_decide as Hin.
    + f_equal. apply set_eq. intros z. rewrite elem_of_union, elem_of_singleton.
      split; [intros [->|?]; assumption | auto].
    + rewrite size_union, size_singleton; [reflexivity|].
      intros z Hz%elem_of_singleton. congruence.
Qed.

End BanMore.

(** ** The game-state service, further *)

Lemma size_filter_map_to_list {A} (P : Z * A -> Prop) `{!forall x, Decision (P x)}
    (m : gmap Z A) :
  size (filter P m) = length (filter P (map_to_list m)).
Proof.
  rewrite map_filter_alt, map_size_list_to_map; [reflexivity|].
  apply (sublist_NoDup _ _ (NoDup_fst_map_to_list m)).
  apply fmap_sublist, sublist_filter.
Qed.

Section GameMore.
Import Py Game.
Context {P : Type}.

Lemma end_game_lookup_other (g g' : Z) (s : GameService P) :
  g' <> g -> _games (snd (end_game g s)) !! g' = _games s !! g'.
Proof.
  intros Hne. unfold end_game. destruct (_games s !! g); simpl; [|reflexivity].
  apply lookup_delete_ne. congruence.
Qed.

Lemma end_game_invariant (g : Z) (s : GameService P) :
  game_invariant s -> game_invariant (snd (end_game g s)).
Proof.
  intros [Hact Hdis]. unfold end_game.
  destruct (_games s !! g) as [ref|] eqn:Hg; [|split; assumption].
  cbn [snd]. split.
  - intros g' r' Hg'. cbn [_games objects] in *.
    apply lookup_delete_Some in Hg' as [Hne Hg'].
    destruct (Hact g' r' Hg') as (game & Ho & Ha).
    exists game. split; [|exact Ha].
    rewrite lookup_alter_ne; [exact Ho|].
    intros <-. apply Hne. exact (Hdis g g' ref Hg Hg').
  - intros g1 g2 r H1 H2. cbn [_games] in *.
    apply lookup_delete_Some in H1 as [_ H1].
    apply lookup_delete_Some in H2 as [_ H2].
    exact (Hdis g1 g2 r H1 H2).
Qed.

Lemma end_game_removes (g : Z) (s : GameService P) :
  _games (snd (end_game g s)) !! g = None.
Proof.
  unfold end_game. destruct (_games s !! g) eqn:Hg; simpl; [|exact Hg].
  apply lookup_delete_eq.
Qed.

Lemma start_game_invariant (create_game : Z -> py (GameState P)) (g : Z)
    (s : GameService P) :
  (forall game, create_game g = Ret game -> is_active game = true) ->
  game_invariant s -> game_invariant (snd (start_game create_game g s)).
Proof.
  intros Hcreate Hinv. unfold start_game.
  set (s1 := if bool_decide (is_Some (_games s !! g))
             then snd (end_game g s) else s).
  assert (Hinv1 : game_invariant s1).
  { subst s1. case_bool_decide; [now apply end_game_invariant | exact Hinv]. }
  assert (Hg1 : _games s1 !! g = None).
  { subst s1. case_bool_decide as H; [apply end_game_removes|].
    destruct (_games s !! g) eqn:E; [exfalso; apply H; eauto | reflexivity]. }
  destruct (create_game g) as [game|e] eqn:Hc; cbn [snd];
    [|destruct (is_exception e); exact Hinv1].
  destruct Hinv1 as [Hact Hdis].
  set (ref := fresh (dom (objects s1))).
  assert (Hfresh : objects s1 !! ref = None)
    by (apply not_elem_of_dom, is_fresh).
  assert (Hold : forall g' r', _games s1 !! g' = Some r' -> r' <> ref).
  { intros g' r' Hg' ->. destruct (Hact g' ref Hg') as (? & Ho & _). congruence. }
  split.
  - intros g' r' Hg'. cbn [_games objects] in *.
    apply lookup_insert_Some in Hg' as [[<- <-]|[Hne Hg']].
    + exists game. rewrite lookup_insert_eq. split; [reflexivity|].
      apply Hcreate. reflexivity.
    + destruct (Hact g' r' Hg') as (game' & Ho & Ha).
      exists game'. split; [|exact Ha].
      rewrite lookup_insert_ne; [exact Ho|]. intros <-. exact (Hold g' ref Hg' eq_refl).
  - intros g1 g2 r H1 H2. cbn [_games] in *.
    apply lookup_insert_Some in H1 as [[<- <-]|[Hn1 H1]];
      apply lookup_insert_Some in H2 as [[<- E2]|[Hn2 H2]]; try reflexivity.
    + exfalso. exact (Hold g2 ref H2 eq_refl).
    + exfalso. subst r. exact (Hold g1 ref H1 eq_refl).
    + exact (Hdis g1 g2 r H1 H2).
Qed.

Lemma update_fields_invariant (ref : nat) (game : GameState P) (new_fields : P)
    (s : GameService P) :
  objects s !! ref = Some game ->
  game_invariant s -> game_invariant (update_fields ref game new_fields s).
Proof.
  intros Ho [Hact Hdis]. split.
  - intros g' r' Hg'. cbn [update_fields _games objects] in *.
    destruct (Hact g' r' Hg') as (game' & Ho' & Ha).
    destruct (decide (r' = ref)) as [->|Hne].
    + rewrite lookup_insert_eq. eexists. split; [reflexivity|].
      cbn [is_active]. congruence.
    + rewrite lookup_insert_ne by congruence. eauto.
  - exact Hdis.
Qed.

Lemma reachable_invariant (s : GameService P) : reachable s -> game_invariant s.
Proof.
  induction 1 as [|s g create _ IH Hcreate|s g _ IH|s ref game nf _ IH Ho].
  - split; intros g ref H; discriminate.
  - now apply start_game_invariant.
  - now apply end_game_invariant.
  - now apply update_fields_invariant.
Qed.

(** C4. In every state the service reaches as the repository uses
    it, [end_game g] marks the state stored for the group inactive,
    on the object itself and so for whoever still holds it, and
    removes it from the map; it returns [False], changing nothing,
    whenever [has_active_game g] is false at the call, and returns
    [True] only when the group had an active game, which is then
    ended. *)
Theorem end_game_marks_and_removes (s : GameService P) (g : Z) :
  reachable s ->
  let r := end_game g s in
  (forall ref, get_game g s = Some ref ->
     exists game, objects s !! ref = Some game /\
       objects (snd r) !! ref = Some (set_is_active false game) /\
       active_at (snd r) ref = false) /\
  get_game g (snd r) = None /\
  (has_active_game g s = false -> r = (false, s)) /\
  (fst r = true ->
     has_active_game g s = true /\ has_active_game g (snd r) = false).
Proof.
  intros [Hact _]%reachable_invariant r. subst r. repeat split.
  - intros ref Hg. unfold get_game in Hg.
    destruct (Hact g ref Hg) as (game & Ho & _).
    destruct (end_game_present g ref game s Hg Ho) as (_ & Ho' & _).
    exists game. repeat split; [exact Ho | exact Ho' |].
    unfold active_at. rewrite Ho'. reflexivity.
  - apply end_game_removes.
  - intros Hno. apply end_game_absent.
    destruct (_games s !! g) as [ref|] eqn:Hg; [|reflexivity].
    destruct (Hact g ref Hg) as (game & Ho & Ha).
    unfold has_active_game, get_game, deref in Hno. rewrite Hg, Ho in Hno.
    congruence.
  - apply end_game_true_iff in H as [ref Hg].
    destruct (Hact g ref Hg) as (game & Ho & Ha).
    unfold has_active_game, get_game, deref. rewrite Hg, Ho. exact Ha.
  - apply end_game_not_active.
Qed.

(** X13. As long as games are started and ended only through the
    service, by constructors that return states in progress, and a
    game otherwise only updates the fields of its state objects, a
    group has an active game exactly when a state is stored for it,
    and [end_game] returns [True] exactly when the group had an
    active game. *)
Theorem reachable_end_game_agrees (s : GameService P) :
  reachable s ->
  forall g, (has_active_game g s = true <-> is_Some (get_game g s)) /\
            fst (end_game g s) = has_active_game g s.
Proof.
  intros [Hact _]%reachable_invariant g.
  unfold has_active_game, get_game, deref, end_game.
  destruct (_games s !! g) as [ref|] eqn:Hg.
  - destruct (Hact g ref Hg) as (game & -> & ->). cbn. split; [|reflexivity].
    split; eauto.
  - cbn. split; [|reflexivity]. split; [discriminate | intros [? ?]; discriminate].
Qed.

(** X14. [start_game] replaces a game by force: when the constructor
    returns a state, the result is a success carrying the new state
    object, which is now the one stored for the group; the state
    stored before, if any, is a different object and has been marked
    inactive for whoever still holds it. *)
Theorem start_game_replaces (create_game : Z -> py (GameState P)) (g : Z)
    (game : GameState P) (s : GameService P) :
  create_game g = Ret game ->
  (forall g' ref', _games s !! g' = Some ref' -> is_Some (objects s !! ref')) ->
  let r := start_game create_game g s in
  exists ref,
    fst r = Ret (Result.success ref) /\
    get_game g (snd r) = Some ref /\
    objects (snd r) !! ref = Some game /\
    has_active_game g (snd r) = is_active game /\
    (forall ref0, _games s !! g = Some ref0 ->
       ref0 <> ref /\ active_at (snd r) ref0 = false).
Proof.
  intros Hc Hdang r. subst r. unfold start_game. rewrite Hc.
  set (s1 := if bool_decide (is_Some (_games s !! g))
             then snd (end_game g s) else s).
  set (ref := fresh (dom (objects s1))).
  assert (Hfresh : ref ∉ dom (objects s1)) by apply is_fresh.
  exists ref. cbn [fst snd]. unfold get_game, has_active_game, get_game, deref.
  cbn [_games objects]. rewrite !lookup_insert_eq. repeat split.
  - intros ->. apply Hfresh. destruct (Hdang g ref H) as [o Ho].
    subst s1. rewrite bool_decide_eq_true_2 by eauto.
    unfold end_game. rewrite H. cbn [snd objects].
    apply elem_of_dom. rewrite lookup_alter_eq, Ho. eauto.
  - assert (Hne : ref0 <> ref).
    { intros ->. apply Hfresh. destruct (Hdang g ref H) as [o Ho].
      subst s1. rewrite bool_decide_eq_true_2 by eauto.
      unfold end_game. rewrite H. cbn [snd objects].
      apply elem_of_dom. rewrite lookup_alter_eq, Ho. eauto. }
    unfold active_at. cbn [objects]. rewrite lookup_insert_ne by congruence.
    subst s1. rewrite bool_decide_eq_true_2 by eauto.
    unfold end_game. rewrite H. cbn [snd objects].
    rewrite lookup_alter_eq. destruct (objects s !! ref0); reflexivity.
Qed.

(** X15. A start that fails still ends the game in progress: when
    the constructor raises an [Exception], [start_game] returns a
    failure whose text carries the exception (any other exception
    goes through to the caller); either way it creates nothing, and
    the group is left without a game. *)
Theorem start_game_failure_ends_game (create_game : Z -> py (GameState P))
    (g : Z) (e : exn) (s : GameService P) :
  create_game g = Raise e ->
  let r := start_game create_game g s in
  (is_exception e = true ->
     exists res, fst r = Ret res /\
       Result.is_success res = false /\
       Result.error res = Some (String.append "开始游戏失败: " (exn_str e))) /\
  (is_exception e = false -> fst r = Raise e) /\
  get_game g (snd r) = None /\
  has_active_game g (snd r) = false /\
  snd r = snd (end_game g s).
Proof.
  intros Hc r. subst r. unfold start_game. rewrite Hc.
  assert (E : (if bool_decide (is_Some (_games s !! g))
               then snd (end_game g s) else s) = snd (end_game g s)).
  { case_bool_decide as H; [reflexivity|].
    unfold end_game. destruct (_games s !! g) eqn:Hg; [|reflexivity].
    exfalso. apply H. eauto. }
  rewrite E. destruct (is_exception e); cbn [fst snd]; repeat split;
    try discriminate; try apply end_game_removes; try apply end_game_not_active.
  intros _. eexists. repeat split.
Qed.

(** X16. [get_active_games_count] is the number of entries of
    [list_active_games], and a group is listed there, with its state
    object, exactly when that object is the one stored for the group
    and the group has an active game. *)
Theorem active_games_listed (s : GameService P) :
  get_active_games_count s = size (list_active_games s) /\
  forall g ref,
    list_active_games s !! g = Some ref <->
    get_game g s = Some ref /\ has_active_game g s = true.
Proof.
  split.
  - unfold get_active_games_count, list_active_games.
    now rewrite size_filter_map_to_list.
  - intros g ref. unfold list_active_games, get_game, has_active_game, get_game,
      deref, active_at.
    rewrite map_lookup_filter_Some. cbn [snd]. split.
    + intros [Hg Ha]. rewrite Hg. split; [reflexivity | exact Ha].
    + intros [Hg Ha]. rewrite Hg in Ha. split; assumption.
Qed.

End GameMore.

(** ** The roulette game *)

Section HighNoonFacts.
Import Py Game HighNoon.

Lemma statements_lookup (c : Z) :
  (0 <= c < 5)%Z ->
  exists m, STATEMENTS !! Z.to_nat c = Some m /\
            list_index STATEMENTS (c + 1 - 1) = Ret m /\
            drop (Z.to_nat c) STATEMENTS = m :: drop (Z.to_nat (c + 1)) STATEMENTS.
Proof.
  intros Hc.
  assert (H : (c = 0 \/ c = 1 \/ c = 2 \/ c = 3 \/ c = 4)%Z) by lia.
  destruct H as [ -> | [ -> | [ -> | [ -> | -> ] ] ] ]; eexists; repeat split; reflexivity.
Qed.

Lemma start_game_loaded (b g : Z) (s : GameService HighNoonFields) :
  loaded g b 0 (snd (start_game (create_game b) g s)).
Proof.
  unfold start_game, create_game, loaded. cbn [snd _games objects].
  eexists _, g, []. rewrite !lookup_insert_eq. split; reflexivity.
Qed.

Lemma fire_miss (g b c u : Z) (name : string) (s : GameService HighNoonFields) :
  loaded g b c s -> (0 <= c < 5)%Z -> (c + 1 <> b)%Z ->
  exists m, STATEMENTS !! Z.to_nat c = Some m /\
            fst (fire g u name s) = miss m /\
            loaded g b (c + 1) (snd (fire g u name s)).
Proof.
  intros (ref & gid & pl & Hg & Ho) Hc Hne.
  destruct (statements_lookup c Hc) as (m & Hm & Hidx & _).
  exists m. split; [exact Hm|].
  unfold fire, get_game, deref. rewrite Hg, Ho.
  cbn [is_active negb fields shot_count bullet_pos players Game.group_id].
  rewrite (proj2 (Z.eqb_neq _ _) Hne), Hidx. cbn [fst snd]. split; [reflexivity|].
  eexists ref, gid, _. cbn [_games objects]. split; [exact Hg|].
  rewrite lookup_insert_eq. reflexivity.
Qed.

Lemma fire_hit (g b c u : Z) (name : string) (s : GameService HighNoonFields) :
  loaded g b c s -> (c + 1 = b)%Z ->
  fst (fire g u name s) =
    Ret (Some {| hit := true;
                 message := String.append "来吧,"
                              (String.append name ",鲜血会染红这神圣的场所");
                 game_over := true |}) /\
  get_game g (snd (fire g u name s)) = None /\
  has_active_game g (snd (fire g u name s)) = false.
Proof.
  intros (ref & gid & pl & Hg & Ho) He.
  unfold fire, get_game, deref. rewrite Hg, Ho.
  cbn [is_active negb fields shot_count bullet_pos players Game.group_id].
  rewrite (proj2 (Z.eqb_eq _ _) He). cbn [fst snd]. repeat split.
  - apply end_game_removes.
  - apply end_game_not_active.
Qed.

Lemma fire_no_game (g u : Z) (name : string) (s : GameService HighNoonFields) :
  has_active_game g s = false -> fire g u name s = (Ret None, s).
Proof.
  unfold has_active_game, fire.
  destruct (get_game g s) as [ref|]; [|reflexivity].
  destruct (deref s ref) as [game|]; [|reflexivity].
  intros ->. reflexivity.
Qed.

Lemma fires_misses (g b : Z) (shooters : list (Z * string)) (c : Z)
    (s : GameService HighNoonFields) :
  loaded g b c s -> (0 <= c)%Z -> (c + Z.of_nat (length shooters) < b <= 6)%Z ->
  fst (fires g shooters s) =
    miss <$> take (length shooters) (drop (Z.to_nat c) STATEMENTS) /\
  loaded g b (c + Z.of_nat (length shooters)) (snd (fires g shooters s)).
Proof.
  revert c s. induction shooters as [|[u name] rest IH]; intros c s Hl Hc Hb.
  - cbn. rewrite Z.add_0_r. split; [reflexivity | exact Hl].
  - cbn [length] in Hb. cbn [fires].
    destruct (fire_miss g b c u name s Hl ltac:(lia) ltac:(lia))
      as (m & Hm & Hr & Hl').
    destruct (fire g u name s) as [r s1]. cbn [fst snd] in *.
    destruct (IH (c + 1)%Z s1 Hl' ltac:(lia) ltac:(lia)) as [Hrs Hl''].
    destruct (fires g rest s1) as [rs s2]. cbn [fst snd] in *.
    destruct (statements_lookup c ltac:(lia)) as (m' & Hm' & _ & Hdrop).
    rewrite Hm in Hm'. injection Hm' as <-.
    split.
    + rewrite Hdrop. cbn [length take fmap list_fmap]. now rewrite Hr, Hrs.
    + cbn [length]. replace (c + Z.of_nat (S (length rest)))%Z
        with (c + 1 + Z.of_nat (length rest))%Z by lia. exact Hl''.
Qed.

(** X17. A roulette game lasts exactly as many shots as the bullet's
    position.  For a bullet at [b] between 1 and 6, the first [b - 1]
    calls of [fire] after [start_game] are misses answered with the
    first [b - 1] statements in order (the statement list is never
    indexed out of range), the next call is the hit, which ends the
    game, and any call after that returns [None]. *)
Theorem highnoon_game_length (b g : Z) (shooters : list (Z * string))
    (u u' : Z) (name name' : string) (s : GameService HighNoonFields) :
  (1 <= b <= 6)%Z -> length shooters = Z.to_nat (b - 1) ->
  let s0 := snd (start_game (create_game b) g s) in
  let s1 := snd (fires g shooters s0) in
  let s2 := snd (fire g u name s1) in
  fst (fires g shooters s0) = miss <$> take (length shooters) STATEMENTS /\
  has_active_game g s1 = true /\
  fst (fire g u name s1) =
    Ret (Some {| hit := true;
                 message := String.append "来吧,"
                              (String.append name ",鲜血会染红这神圣的场所");
                 game_over := true |}) /\
  has_active_game g s2 = false /\
  fire g u' name' s2 = (Ret None, s2).
Proof.
  intros Hb Hlen s0 s1 s2.
  destruct (fires_misses g b shooters 0 s0 (start_game_loaded b g s)
              ltac:(lia) ltac:(lia)) as [Hrs Hl].
  fold s1 in Hl. cbn [Z.to_nat drop] in Hrs.
  destruct (fire_hit g b _ u name s1 Hl ltac:(lia)) as (Hhit & _ & Hoff).
  fold s2 in Hoff. repeat split; auto.
  - destruct Hl as (ref & gid & pl & Hg & Ho).
    unfold has_active_game, get_game, deref. now rewrite Hg, Ho.
  - now apply fire_no_game.
Qed.

(** [fire] keeps the service among the states of [reachable]: it
    updates the fields of the stored object and, on a hit, ends the
    game. *)
Lemma fire_reachable (g u : Z) (name : string) (s : GameService HighNoonFields) :
  reachable s -> reachable (snd (fire g u name s)).
Proof.
  intros Hr. unfold fire.
  destruct (get_game g s) as [ref|]; [|exact Hr].
  unfold deref. destruct (objects s !! ref) as [game|] eqn:Ho; [|exact Hr].
  destruct (is_active game) eqn:Ha; cbn [negb]; [|exact Hr].
  match goal with
  | |- context [<[ref := {| group_id := _; is_active := _; fields := ?f |}]> _] =>
      pose proof (reachable_update s ref game f Hr Ho) as Hu
  end.
  unfold update_fields in Hu. rewrite Ha in Hu.
  destruct (_ =? _)%Z; cbn [snd].
  - apply reachable_end, Hu.
  - destruct (list_index _ _); exact Hu.
Qed.

End HighNoonFacts.

(** ** The chat service, further *)

Section ChatMore.
Import Py Config Chat.

(** X18. The two cooldown queries agree (for a setting a double
    represents, as every setting of at most 2^53 seconds is):
    [get_cooldown_remaining] is never negative, and it is zero
    exactly when [check_cooldown] answers that the cooldown is
    over. *)
Theorem cooldown_remaining_agrees (fl : Q -> Q) (cfg : PluginConfig) (now : Q)
    (g : Z) (s : ChatService) :
  ieee_rounding fl ->
  (Z.abs (random_reply_cooldown cfg) <= 2 ^ 53)%Z ->
  (0 <= fst (get_cooldown_remaining fl cfg now g s))%Q /\
  ((fst (get_cooldown_remaining fl cfg now g s) == 0)%Q <->
   fst (check_cooldown fl cfg now g s) = true).
Proof.
  intros I Hcd. unfold get_cooldown_remaining, check_cooldown.
  destruct (_cooldown (ensure_initialized s) !! g) as [last|]; cbn [fst].
  - unfold max0, Qgtb, Qgeb.
    pose proof (fl_integer fl I _ Hcd) as Ecd.
    set (cd := inject_Z (random_reply_cooldown cfg)) in *.
    set (el := fl (now - last)%Q).
    assert (Eel : (fl el == el)%Q) by apply (fl_idempotent fl I).
    assert (Eiff : (fl (fl cd - el) <= 0)%Q <-> (cd <= el)%Q).
    { split; intros H.
      - destruct (Qlt_le_dec el cd) as [Hlt|Hle]; [|exact Hle]. exfalso.
        assert (Hp : (0 < fl (fl cd - el))%Q).
        { apply (fl_sub_pos fl I); [apply (fl_idempotent fl I) | exact Eel | lra]. }
        lra.
      - rewrite <- (fl_zero fl I). apply (fl_monotone fl I). lra. }
    destruct (Qle_bool (fl (fl cd - el)%Q) 0) eqn:E1; cbn [negb].
    + apply Qle_bool_iff in E1. split; [lra|]. split; [|reflexivity].
      intros _. apply Qle_bool_iff, Eiff, E1.
    + assert (H1 : ~ (fl (fl cd - el) <= 0)%Q)
        by (intros H%Qle_bool_iff; congruence).
      split; [lra|]. split.
      * intros H. lra.
      * intros H%Qle_bool_iff. exfalso. apply H1, Eiff, H.
  - split; [lra|]. split; [reflexivity | intros _; reflexivity].
Qed.

(** X19. [clear_cooldown] for a group lifts the gate for that group
    at once and leaves the other groups' answers as they were;
    without a group it lifts the gate for all. *)
Theorem clear_cooldown_spec (fl : Q -> Q) (cfg : PluginConfig) (now : Q) (g g' : Z)
    (s : ChatService) :
  fst (check_cooldown fl cfg now g (clear_cooldown (Some g) s)) = true /\
  fst (check_cooldown fl cfg now g (clear_cooldown None s)) = true /\
  (g' <> g ->
   fst (check_cooldown fl cfg now g' (clear_cooldown (Some g) s)) =
     fst (check_cooldown fl cfg now g' s)).
Proof.
  unfold check_cooldown. rewrite !chat_ensure_initialized_cooldown.
  unfold clear_cooldown. cbn [_cooldown].
  rewrite chat_ensure_initialized_cooldown, lookup_delete_eq, lookup_empty.
  repeat split. intros Hne. rewrite lookup_delete_ne by congruence.
  destruct (_cooldown s !! g'); reflexivity.
Qed.

Lemma record_message_other (clean : string -> string) (cfg : PluginConfig)
    (now : Q) (g g' u : Z) (name msg : string) (bot : bool) (s : ChatService) :
  g' <> g ->
  _history (snd (record_message clean cfg now g u name msg bot s)) !! g'
    = _history s !! g' /\
  _cooldown (snd (record_message clean cfg now g u name msg bot s)) = _cooldown s.
Proof.
  intros Hne. unfold record_message, _get_or_create_history.
  rewrite <- (chat_ensure_initialized_history s),
          <- (chat_ensure_initialized_cooldown s).
  destruct (_history (ensure_initialized s) !! g) as [d|]; cbn [snd _history _cooldown].
  - rewrite lookup_insert_ne by congruence. auto.
  - destruct (deque_new (max_history_per_group cfg)); cbn [snd _history _cooldown].
    + rewrite !lookup_insert_ne by congruence. auto.
    + auto.
Qed.

(** X20. Groups are kept apart: recording a message for one group,
    whether it succeeds or raises, changes neither the messages
    returned for another group nor any cooldown. *)
Theorem record_message_isolated (fl : Q -> Q) (clean : string -> string)
    (cfg : PluginConfig) (now now' : Q) (g g' u : Z) (name msg : string) (bot : bool)
    (limit : Z) (include_bot : bool) (s : ChatService) :
  g' <> g ->
  let s' := snd (record_message clean cfg now g u name msg bot s) in
  fst (get_messages g' limit include_bot s') = fst (get_messages g' limit include_bot s) /\
  (forall h, fst (check_cooldown fl cfg now' h s') = fst (check_cooldown fl cfg now' h s)).
Proof.
  intros Hne s'.
  destruct (record_message_other clean cfg now g g' u name msg bot s Hne) as [Hh Hc].
  fold s' in Hh, Hc. split.
  - unfold get_messages. rewrite !chat_ensure_initialized_history, Hh.
    destruct (_history s !! g'); reflexivity.
  - intros h. unfold check_cooldown. rewrite !chat_ensure_initialized_cooldown, Hc.
    destruct (_cooldown s !! h); reflexivity.
Qed.

(** X21. [clear_history] for a group leaves that group without
    messages and the other groups' messages as they were; without a
    group it leaves no messages at all. *)
Theorem clear_history_spec (g g' : Z) (limit : Z) (include_bot : bool)
    (s : ChatService) :
  fst (get_messages g limit include_bot (clear_history (Some g) s)) = [] /\
  fst (get_messages g limit include_bot (clear_history None s)) = [] /\
  (g' <> g ->
   fst (get_messages g' limit include_bot (clear_history (Some g) s)) =
     fst (get_messages g' limit include_bot s)).
Proof.
  unfold get_messages. rewrite !chat_ensure_initialized_history.
  unfold clear_history. cbn [_history].
  rewrite chat_ensure_initialized_history, lookup_delete_eq, lookup_empty.
  repeat split. intros Hne. rewrite lookup_delete_ne by congruence.
  destruct (_history s !! g'); reflexivity.
Qed.

Lemma recent_users_loop_spec (limit : Z) (msgs : list ChatMessage)
    (seen : gset Z) (users : list (Z * string)) :
  NoDup users.*1 -> (forall u, u ∈ users.*1 -> u ∈ seen) ->
  (users = [] \/ (Z.of_nat (length users) < limit)%Z) ->
  exists more,
    recent_users_loop limit msgs seen users = (users ++ more)%list /\
    NoDup ((users ++ more)%list).*1 /\
    more `sublist_of` ((fun m => (user_id m, username m)) <$> msgs) /\
    Forall (fun p => fst p <> 0%Z) more /\
    (Z.of_nat (length (users ++ more)%list) <= Z.max 1 limit)%Z.
Proof.
  revert seen users. induction msgs as [|m rest IH]; intros seen users Hnd Hseen Hlen.
  - exists []. rewrite app_nil_r. cbn. repeat split; auto.
    destruct Hlen as [->|]; cbn; lia.
  - cbn [recent_users_loop].
    destruct (negb (user_id m =? 0)%Z && negb (bool_decide (user_id m ∈ seen)))
      eqn:Hcond.
    + apply andb_true_iff in Hcond as [Hnz Hnew].
      apply negb_true_iff, Z.eqb_neq in Hnz.
      apply negb_true_iff, bool_decide_eq_false in Hnew.
      assert (Hnd' : NoDup ((users ++ [(user_id m, username m)])%list).*1).
      { rewrite fmap_app. apply NoDup_app. repeat split; [exact Hnd| |].
        - intros u Hu Hu2. cbn in Hu2. apply list_elem_of_singleton in Hu2.
          subst u. apply Hnew, Hseen, Hu.
        - cbn. apply NoDup_singleton. }
      destruct (Z.leb_spec limit
                  (Z.of_nat (length (users ++ [(user_id m, username m)])%list)))
        as [Hstop|Hgo].
      * exists [(user_id m, username m)]. repeat split; auto.
        -- cbn. apply sublist_skip. apply sublist_nil_l.
        -- rewrite length_app in *. cbn [length] in *.
           destruct Hlen as [->|Hlt]; cbn [length] in *; lia.
      * destruct (IH ({[user_id m]} ∪ seen) (users ++ [(user_id m, username m)])%list
                    Hnd') as (more & Hr & Hnd'' & Hsub & Hall & Hbound).
        -- intros u Hu. rewrite fmap_app in Hu. apply elem_of_app in Hu as [Hu|Hu].
           ++ apply elem_of_union. right. apply Hseen, Hu.
           ++ cbn in Hu. apply list_elem_of_singleton in Hu. subst u.
              apply elem_of_union. left. now apply elem_of_singleton.
        -- right. exact Hgo.
        -- exists ((user_id m, username m) :: more).
           rewrite <- app_assoc in Hr, Hnd'', Hbound. cbn [app] in *.
           repeat split; auto.
           ++ cbn. now apply sublist_skip.
    + destruct (IH seen users Hnd Hseen Hlen) as (more & Hr & Hnd' & Hsub & Hall & Hb).
      exists more. repeat split; auto. cbn. now apply sublist_cons.
Qed.

(** X22. [get_recent_users] returns each user at most once, never
    the user id 0, and pairs taken from the stored messages in order
    from the newest back; the list has at most [max 1 limit] entries
    (the limit is only tested after a user was added). *)
Theorem get_recent_users_spec (g : Z) (limit : Z) (s : ChatService) :
  let users := fst (get_recent_users g limit s) in
  NoDup users.*1 /\
  Forall (fun p => fst p <> 0%Z) users /\
  (Z.of_nat (length users) <= Z.max 1 limit)%Z /\
  users `sublist_of`
    ((fun m => (user_id m, username m)) <$>
       reverse (default [] (items <$> _history s !! g))).
Proof.
  unfold get_recent_users. rewrite chat_ensure_initialized_history.
  destruct (_history s !! g) as [d|]; cbn [fst default fmap option_fmap option_map].
  - destruct (items d) as [|m0 l] eqn:Hi.
    + cbn. repeat split; [constructor | constructor | lia | constructor].
    + destruct (recent_users_loop_spec limit (reverse (m0 :: l)) ∅ [])
        as (more & -> & Hnd & Hsub & Hall & Hb).
      * constructor.
      * intros u Hu. cbn in Hu. now apply not_elem_of_nil in Hu.
      * now left.
      * cbn [app] in *. auto.
  - cbn. repeat split; [constructor | constructor | lia | constructor].
Qed.

End ChatMore.

(** ** The dispatch wrappers, further *)

Section DispatchMore.
Import Py Dispatch.

Variable strip : string -> string.

Lemma check_feature_run (plugin : Plugin) (w : world) :
  _check_feature plugin w =
    (Ret (feature_enabled plugin (config w)),
     with_state w (ban_service w) (current_event w) (trace w ++ [FeatureChecked])%list).
Proof.
  unfold _check_feature, feature_enabled, bind, emit, ret, with_state.
  destruct (feature_name plugin) as [name|]; [|reflexivity].
  case_bool_decide; reflexivity.
Qed.

Lemma try_finally_reset {A} (body : M A) (token : option MessageEvent) (w : world) :
  current_event (snd (try_finally body (context_reset token) w)) = token.
Proof. unfold try_finally. destruct (body w) as [r w1]. reflexivity. Qed.

(** X23. Both wrappers restore the task-local current event on every
    path: whatever the plugin's methods do or raise, after the
    handler the current event is what it was before. *)
Theorem context_always_restored (plugin : Plugin)
    (handle_message : MessageEvent -> M unit) (event : MessageEvent)
    (args : string) (w : world) :
  current_event (snd (handler strip plugin event args w)) = current_event w /\
  current_event (snd (message_handler plugin handle_message event w)) = current_event w.
Proof.
  split.
  - unfold handler. unfold bind at 1. unfold context_set. cbv beta iota.
    apply try_finally_reset.
  - unfold message_handler. unfold bind at 1. unfold context_set. cbv beta iota.
    apply try_finally_reset.
Qed.

(** X24. A command for a switched-off feature: for a sender who is
    not banned and a plugin with a matcher whose feature switch is
    off, the handler evaluates the switch, sends the fixed
    feature-off message and stops with [FinishedException]; [handle]
    is not entered. *)
Theorem disabled_feature_rejected (plugin : Plugin) (event : MessageEvent)
    (args : string) (w : world) :
  _matcher plugin = true ->
  fst (Ban.is_banned (ban_file w) (user_id event) (ban_service w)) = false ->
  feature_enabled plugin (config w) = false ->
  handler strip plugin event args w =
    (Raise FinishedException,
     with_state w (snd (Ban.is_banned (ban_file w) (user_id event) (ban_service w)))
       (current_event w)
       (trace w ++ [FeatureChecked; Sent feature_off_message])%list).
Proof.
  intros Hm Hb Hf.
  unfold handler, bind, try_finally, context_set, _check_permission.
  cbn [ban_file ban_service current_event trace config].
  destruct (Ban.is_banned (ban_file w) (user_id event) (ban_service w))
    as [banned bs] eqn:Eb.
  cbn [fst snd] in *. subst banned. cbn [negb].
  rewrite check_feature_run. cbn [config]. rewrite Hf. cbn [negb].
  unfold finish. rewrite Hm. unfold bind, emit, raise, context_reset, with_state.
  cbn. rewrite <- app_assoc. reflexivity.
Qed.

(** The world in which [handle] is entered for an allowed sender and
    an enabled feature. *)
Lemma handler_dispatch (plugin : Plugin) (event : MessageEvent)
    (args : string) (w : world) :
  fst (Ban.is_banned (ban_file w) (user_id event) (ban_service w)) = false ->
  feature_enabled plugin (config w) = true ->
  let w2 := with_state w
              (snd (Ban.is_banned (ban_file w) (user_id event) (ban_service w)))
              (Some event)
              (trace w ++ [FeatureChecked; Handled event (strip args)])%list in
  handler strip plugin event args w =
    match handle plugin event (strip args) w2 with
    | (Ret a, w3) => (Ret a, with_state w3 (ban_service w3) (current_event w) (trace w3))
    | (Raise e, w3) =>
        if is_exception e && negb (is_finished e)
        then
          match handle_error plugin e w3 with
          | (r, w4) => (r, with_state w4 (ban_service w4) (current_event w) (trace w4))
          end
        else (Raise e, with_state w3 (ban_service w3) (current_event w) (trace w3))
    end.
Proof.
  intros Hb Hf w2. subst w2.
  unfold handler, bind, try_finally, try_except, context_set, _check_permission.
  cbn [ban_file ban_service current_event trace config].
  destruct (Ban.is_banned (ban_file w) (user_id event) (ban_service w))
    as [banned bs] eqn:Eb.
  cbn [fst snd] in *. subst banned. cbn [negb].
  rewrite check_feature_run. cbn [config]. rewrite Hf. cbn [negb].
  unfold call_handle, bind, emit, with_state.
  cbn [ban_file ban_service current_event trace config].
  rewrite <- app_assoc. cbn [app].
  destruct (handle plugin event (strip args) _) as [[a|e] w3].
  - reflexivity.
  - destruct e; cbn; try reflexivity;
      destruct (handle_error plugin _ w3) as [[?|?] w4]; reflexivity.
Qed.

Lemma is_finished_iff (e : exn) : is_finished e = true <-> e = FinishedException.
Proof. destruct e; cbn; split; congruence. Qed.

(** X25. Errors of [handle] are converted at the wrapper: when
    [handle] raises an [Exception] other than [FinishedException],
    the plugin's [handle_error] is run on that exception and its
    outcome is the handler's; a [FinishedException] of [handle]
    passes through and [handle_error] is not run; nor is it run for
    an exception that is not an [Exception] (a cancellation), which
    leaves the handler as it was raised. *)
Theorem handle_errors_converted (plugin : Plugin) (event : MessageEvent)
    (args : string) (e : exn) (w w3 : world) :
  fst (Ban.is_banned (ban_file w) (user_id event) (ban_service w)) = false ->
  feature_enabled plugin (config w) = true ->
  handle plugin event (strip args)
    (with_state w
       (snd (Ban.is_banned (ban_file w) (user_id event) (ban_service w)))
       (Some event)
       (trace w ++ [FeatureChecked; Handled event (strip args)])%list)
    = (Raise e, w3) ->
  (is_exception e = true -> e <> FinishedException ->
   fst (handler strip plugin event args w) = fst (handle_error plugin e w3) /\
   trace (snd (handler strip plugin event args w))
     = trace (snd (handle_error plugin e w3))) /\
  (e = FinishedException ->
   handler strip plugin event args w =
     (Raise FinishedException,
      with_state w3 (ban_service w3) (current_event w) (trace w3))) /\
  (is_exception e = false ->
   handler strip plugin event args w =
     (Raise e, with_state w3 (ban_service w3) (current_event w) (trace w3))).
Proof.
  intros Hb Hf Hh.
  rewrite (handler_dispatch plugin event args w Hb Hf). cbv zeta. rewrite Hh.
  repeat split.
  - rewrite H. destruct (is_finished e) eqn:Ef;
      [apply is_finished_iff in Ef; contradiction|].
    cbn [andb negb]. destruct (handle_error plugin e w3) as [r w4]. reflexivity.
  - rewrite H. destruct (is_finished e) eqn:Ef;
      [apply is_finished_iff in Ef; contradiction|].
    cbn [andb negb]. destruct (handle_error plugin e w3) as [r w4]. reflexivity.
  - intros ->. reflexivity.
  - intros ->. reflexivity.
Qed.

(** X26. The message wrapper is silent: no [Exception] leaves it,
    every one that [handle_message] raises being dropped (what is
    not an [Exception], a cancellation, goes through); with the
    feature switched off it returns having done nothing but evaluate
    the switch (the ban list is not even consulted), and for a banned
    sender it returns having sent nothing and not entered
    [handle_message]. *)
Theorem message_handler_silent (plugin : Plugin)
    (handle_message : MessageEvent -> M unit) (event : MessageEvent) (w : world) :
  (forall e, fst (message_handler plugin handle_message event w) = Raise e ->
     is_exception e = false) /\
  (feature_enabled plugin (config w) = false ->
   message_handler plugin handle_message event w =
     (Ret tt, with_state w (ban_service w) (current_event w)
                (trace w ++ [FeatureChecked])%list)) /\
  (feature_enabled plugin (config w) = true ->
   fst (Ban.is_banned (ban_file w) (user_id event) (ban_service w)) = true ->
   message_handler plugin handle_message event w =
     (Ret tt,
      with_state w (snd (Ban.is_banned (ban_file w) (user_id event) (ban_service w)))
        (current_event w) (trace w ++ [FeatureChecked])%list)).
Proof.
  unfold message_handler, bind, try_finally, try_except, context_set.
  rewrite check_feature_run. unfold with_state.
  cbn [ban_file ban_service current_event trace config].
  destruct (feature_enabled plugin (config w)) eqn:Hf; cbn [negb].
  - unfold _check_permission.
    cbn [ban_file ban_service current_event trace config].
    destruct (Ban.is_banned (ban_file w) (user_id event) (ban_service w))
      as [banned bs] eqn:Eb.
    cbn [fst snd]. destruct banned; cbn [negb].
    + repeat split; try discriminate; intros; reflexivity.
    + repeat split; try discriminate.
      intros e. destruct (handle_message event _) as [[[]|e'] w3]; [discriminate|].
      destruct (is_exception e') eqn:Ee; cbn; [discriminate|].
      intros [= <-]. exact Ee.
  - repeat split; try discriminate; intros; reflexivity.
Qed.

(** The message wrapper returns normally when [handle_message] does
    or raises an [Exception]. *)
Lemma message_handler_returns (plugin : Plugin)
    (handle_message : MessageEvent -> M unit) (event : MessageEvent) (w : world) :
  (forall w2 e, fst (handle_message event w2) = Raise e -> is_exception e = true) ->
  fst (message_handler plugin handle_message event w) = Ret tt.
Proof.
  intros Hexc.
  destruct (fst (message_handler plugin handle_message event w)) as [[]|e] eqn:E;
    [reflexivity|].
  exfalso. revert E.
  unfold message_handler, bind, try_finally, try_except, context_set.
  rewrite check_feature_run. unfold with_state.
  cbn [ban_file ban_service current_event trace config].
  destruct (feature_enabled plugin (config w)); cbn [negb]; [|discriminate].
  unfold _check_permission.
  cbn [ban_file ban_service current_event trace config].
  destruct (Ban.is_banned (ban_file w) (user_id event) (ban_service w))
    as [[|] bs]; cbn [negb]; [discriminate|].
  match goal with |- context [handle_message event ?w2] =>
    specialize (Hexc w2); destruct (handle_message event w2) as [[[]|e'] w3]
  end; [discriminate|].
  rewrite (Hexc e' eq_refl). discriminate.
Qed.

End DispatchMore.

(** ** The plugin registry *)

Lemma filter_sublist_mono {A} (P : A -> Prop) `{!forall x, Decision (P x)}
    (l1 l2 : list A) :
  l1 `sublist_of` l2 -> filter P l1 `sublist_of` filter P l2.
Proof.
  induction 1 as [|x l1 l2 _ IH|x l1 l2 _ IH]; [constructor| |].
  - rewrite !filter_cons. destruct (decide (P x)); [now constructor | exact IH].
  - rewrite filter_cons. destruct (decide (P x)); [now constructor | exact IH].
Qed.

Section RegistryFacts.
Import Py Registry.

Lemma dict_get_app (k : string) (l1 l2 : list (string * PluginInfo)) :
  dict_get k (l1 ++ l2)%list =
    match dict_get k l1 with
    | Some v => Some v
    | None => dict_get k l2
    end.
Proof.
  induction l1 as [|[k' v] l1 IH]; [reflexivity|].
  cbn [app dict_get]. case_bool_decide; [reflexivity | exact IH].
Qed.

Lemma dict_get_keys (k : string) (l : list (string * PluginInfo)) :
  dict_get k l = None <-> k ∉ l.*1.
Proof.
  induction l as [|[k' v] l IH]; cbn [dict_get fmap list_fmap fst].
  - split; [intros _; apply not_elem_of_nil | reflexivity].
  - rewrite not_elem_of_cons. case_bool_decide as H.
    + split; [discriminate | intros [Hne _]; congruence].
    + rewrite IH. split; [intros Hn; split; [congruence | exact Hn] | tauto].
Qed.

Lemma register_plugins (info : PluginInfo) (r : PluginRegistry) :
  _plugins (register info r) =
    if bool_decide (is_Some (dict_get (key_of info) (_plugins r)))
    then _plugins r else (_plugins r ++ [(key_of info, info)])%list.
Proof. unfold register. case_bool_decide; reflexivity. Qed.

Lemma register_all_snoc (infos : list PluginInfo) (info : PluginInfo) :
  register_all (infos ++ [info]) = register info (register_all infos).
Proof. unfold register_all. now rewrite foldl_snoc. Qed.

(** X27. The first registration wins.  After any run of
    registrations, the entry found under a key is the first plugin of
    the run with that key, no key is stored twice, and the full
    listing shows the stored plugins in the order of their
    registration. *)
Theorem first_registration_wins (infos : list PluginInfo) :
  (forall k, get_plugin k (register_all infos) =
             head (filter (fun i => key_of i = k) infos)) /\
  NoDup (_plugins (register_all infos)).*1 /\
  get_all_plugins true (register_all infos) `sublist_of` infos.
Proof.
  induction infos as [|info infos IH] using rev_ind.
  - repeat split; [constructor | constructor].
  - destruct IH as (Hget & Hnd & Hsub). rewrite register_all_snoc.
    unfold get_plugin, get_all_plugins in *. cbn [negb] in *.
    rewrite register_plugins.
    case_bool_decide as Hin; repeat split.
    + intros k. rewrite filter_app, Hget.
      destruct (decide (key_of info = k)) as [<-|Hne].
      * destruct Hin as [v Hv]. rewrite Hget in Hv.
        destruct (filter _ infos) as [|? ?]; [discriminate | reflexivity].
      * rewrite filter_cons, decide_False, filter_nil, app_nil_r by exact Hne.
        reflexivity.
    + exact Hnd.
    + now apply sublist_inserts_r.
    + intros k. rewrite dict_get_app, filter_app, Hget. cbn [dict_get].
      destruct (decide (key_of info = k)) as [<-|Hne].
      * assert (Hnone : dict_get (key_of info) (_plugins (register_all infos)) = None).
        { destruct (dict_get _ _) eqn:E; [exfalso; apply Hin; eauto | reflexivity]. }
        rewrite Hget in Hnone. rewrite Hnone.
        rewrite bool_decide_eq_true_2 by reflexivity.
        destruct (filter _ infos) as [|? ?]; [|discriminate].
        rewrite filter_cons, decide_True by reflexivity. reflexivity.
      * rewrite bool_decide_eq_false_2 by exact Hne.
        rewrite filter_cons, decide_False, filter_nil, app_nil_r by exact Hne.
        destruct (head _); reflexivity.
    + rewrite fmap_app. apply NoDup_app. repeat split; [exact Hnd| |].
      * intros k Hk Hk2. cbn in Hk2. apply list_elem_of_singleton in Hk2. subst k.
        apply Hin. destruct (dict_get (key_of info) _) eqn:E; [eauto|].
        now apply dict_get_keys in E.
      * cbn. apply NoDup_singleton.
    + rewrite fmap_app. cbn. now apply sublist_app.
Qed.

(** X28. A second registration under a key already taken changes
    nothing at all: neither the entry nor the command table, so the
    commands and aliases of the later plugin are not recorded. *)
Theorem register_same_key_ignored (info info' : PluginInfo) (r : PluginRegistry) :
  key_of info' = key_of info ->
  register info' (register info r) = register info r.
Proof.
  intros Hk. unfold register at 1. rewrite Hk.
  rewrite bool_decide_eq_true_2; [reflexivity|].
  rewrite register_plugins. case_bool_decide as Hin; [exact Hin|].
  rewrite dict_get_app. destruct (dict_get _ (_plugins r)); [eauto|].
  cbn. rewrite bool_decide_eq_true_2 by reflexivity. eauto.
Qed.

Lemma foldr_insert_lookup (key : string) (l : list string)
    (m : gmap string string) (x : string) :
  foldr (fun alias m => <[alias := key]> m) m l !! x =
    if bool_decide (x ∈ l) then Some key else m !! x.
Proof.
  induction l as [|a l IH]; cbn [foldr].
  - rewrite bool_decide_eq_false_2; [reflexivity | apply not_elem_of_nil].
  - destruct (decide (a = x)) as [->|Hne].
    + rewrite lookup_insert_eq, bool_decide_eq_true_2; [reflexivity|].
      apply list_elem_of_here.
    + rewrite lookup_insert_ne, IH by exact Hne.
      case_bool_decide as H1; case_bool_decide as H2; try reflexivity.
      * exfalso. apply H2. now apply list_elem_of_further.
      * exfalso. apply elem_of_cons in H2 as [?|?]; [congruence|contradiction].
Qed.

(** X29. A plugin registered under a fresh, non-empty key with a
    command is found by that command and by each of its aliases, also
    where an earlier plugin had claimed the same word: in the command
    table the last registration wins. *)
Theorem register_commands_found (info : PluginInfo) (c : string)
    (r : PluginRegistry) :
  get_plugin (key_of info) r = None ->
  key_of info <> "" ->
  command info = Some c -> c <> "" ->
  get_plugin_by_command c (register info r) = Some info /\
  (forall als a, aliases info = Some als -> a ∈ als ->
     get_plugin_by_command a (register info r) = Some info).
Proof.
  intros Hfresh Hkey Hc Hne. unfold get_plugin in Hfresh.
  assert (Hget : dict_get (key_of info) (_plugins (register info r)) = Some info).
  { rewrite register_plugins, Hfresh.
    rewrite bool_decide_eq_false_2 by (intros [? ?]; discriminate).
    rewrite dict_get_app, Hfresh. cbn.
    now rewrite bool_decide_eq_true_2 by reflexivity. }
  assert (Hcmd : forall x,
            (x = c \/ exists als, aliases info = Some als /\ x ∈ als) ->
            _commands (register info r) !! x = Some (key_of info)).
  { intros x Hx. unfold register. rewrite Hfresh.
    rewrite bool_decide_eq_false_2 by (intros [? ?]; discriminate).
    cbn [_commands]. rewrite Hc, (bool_decide_eq_false_2 _ Hne).
    destruct (aliases info) as [als|] eqn:Ha.
    - rewrite foldr_insert_lookup. case_bool_decide as Hin; [reflexivity|].
      destruct Hx as [->|(als' & [= <-] & Hx)].
      + apply lookup_insert_eq.
      + exfalso. apply Hin. now apply elem_of_elements.
    - destruct Hx as [->|(als' & [=] & _)]. apply lookup_insert_eq. }
  split.
  - unfold get_plugin_by_command. rewrite Hcmd by auto.
    now rewrite (bool_decide_eq_false_2 _ Hkey).
  - intros als a Ha Hin. unfold get_plugin_by_command.
    rewrite Hcmd by eauto. now rewrite (bool_decide_eq_false_2 _ Hkey).
Qed.

(** X30. The listings: command plugins and message plugins are both
    parts of the full listing, in the same order; no plugin is in
    both; and a hidden plugin appears in none of the three unless
    hidden plugins are asked for. *)
Theorem plugin_listings (include_hidden : bool) (r : PluginRegistry) :
  get_command_plugins include_hidden r `sublist_of` get_all_plugins include_hidden r /\
  get_message_plugins include_hidden r `sublist_of` get_all_plugins include_hidden r /\
  (forall p, p ∈ get_command_plugins include_hidden r ->
             p ∉ get_message_plugins include_hidden r) /\
  (forall p, p ∈ get_all_plugins false r -> hidden p = false).
Proof.
  unfold get_command_plugins, get_message_plugins, get_all_plugins.
  repeat split.
  - destruct include_hidden; cbn [negb];
      [|apply filter_sublist_mono]; apply sublist_filter.
  - destruct include_hidden; cbn [negb];
      [|apply filter_sublist_mono]; apply sublist_filter.
  - intros p Hc Hm.
    assert (H1 : truthy (command p) && negb (is_message_plugin p) = true).
    { destruct include_hidden; cbn [negb] in Hc;
        repeat (apply list_elem_of_filter in Hc as [? Hc]); assumption. }
    assert (H2 : is_message_plugin p = true).
    { destruct include_hidden; cbn [negb] in Hm;
        repeat (apply list_elem_of_filter in Hm as [? Hm]); assumption. }
    rewrite H2, andb_false_r in H1. discriminate.
  - intros p Hp. cbn [negb] in Hp. now apply list_elem_of_filter in Hp as [? _].
Qed.

End RegistryFacts.

(** ** Instances of the properties that have a precondition *)

Lemma regenerate_invalidates_old_witness :
  let ur1 := fun n => repeat x2a n in
  let ur2 := fun n => repeat x2b n in
  let t1 := fst (Token.generate_token Py.round_double ur1 1000 42 ∅) in
  let s1 := snd (Token.generate_token Py.round_double ur1 1000 42 ∅) in
  let t2 := fst (Token.generate_token Py.round_double ur2 1010 42 s1) in
  let s2 := snd (Token.generate_token Py.round_double ur2 1010 42 s1) in
  t1 <> t2 /\ fst (Token.verify_token 1020 42 t1 s2) = Py.Ret false.
Proof.
  intros ur1 ur2 t1 s1 t2 s2.
  assert (H : t1 <> t2) by (vm_compute; discriminate).
  split; [exact H|].
  exact (proj1 (regenerate_invalidates_old Py.round_double ur1 ur2
                  1000 1010 1020 42 ∅ H)).
Defined.

Lemma token_operations_isolated_witness :
  let s := snd (Token.generate_token Py.round_double
                  (fun n => repeat x2a n) 1000 7 ∅) in
  (7 <> 42)%Z /\ snd (Token.revoke_token 42 s) !! 7%Z = s !! 7%Z.
Proof.
  intros s.
  assert (H : (7 <> 42)%Z) by lia.
  split; [exact H|].
  exact (proj2 (proj2 (token_operations_isolated Py.round_double
                         (fun n => repeat x2a n) 1000 42 7 "x" s H))).
Defined.

Lemma unban_failure_still_unbans_witness :
  let s := snd (Ban.ban [] Ban.WriteOk 7 Ban.new) in
  fst (Ban.is_banned [] 7 s) = true /\
  Result.is_success (fst (Ban.unban [] (Ban.WriteError "disk full") 7 s)) = false /\
  fst (Ban.is_banned [] 7 (snd (Ban.unban [] (Ban.WriteError "disk full") 7 s))) = false.
Proof.
  intros s.
  assert (H : fst (Ban.is_banned [] 7 s) = true) by (vm_compute; reflexivity).
  split; [exact H|].
  exact (unban_failure_still_unbans [] [] "disk full" 7 s H).
Defined.

Lemma ban_unban_round_trip_witness :
  fst (Ban.is_banned [5%Z] 7 Ban.new) = false /\
  Ban._banned_users
    (snd (Ban.unban [] Ban.WriteOk 7 (snd (Ban.ban [5%Z] Ban.WriteOk 7 Ban.new))))
  = Ban._banned_users (snd (Ban.is_banned [5%Z] 7 Ban.new)).
Proof.
  assert (H : fst (Ban.is_banned [5%Z] 7 Ban.new) = false) by (vm_compute; reflexivity).
  split; [exact H|].
  exact (proj2 (proj2 (ban_unban_round_trip [5%Z] [] 7 Ban.new H))).
Defined.

Lemma ban_unban_other_user_witness :
  (5 <> 7)%Z /\
  fst (Ban.is_banned [] 5 (snd (Ban.ban [5%Z] Ban.WriteOk 7 Ban.new))) =
    fst (Ban.is_banned [5%Z] 5 Ban.new).
Proof.
  assert (H : (5 <> 7)%Z) by lia.
  split; [exact H|].
  exact (proj1 (ban_unban_other_user [5%Z] [] Ban.WriteOk 7 5 Ban.new H)).
Defined.

Lemma reachable_end_game_agrees_witness :
  let create := fun g => Py.Ret {| Game.group_id := g; Game.is_active := true;
                                   Game.fields := tt |} in
  let s := snd (Game.start_game create 1 Game.new) in
  Game.reachable s /\ fst (Game.end_game 1 s) = Game.has_active_game 1 s.
Proof.
  intros create s.
  assert (H : Game.reachable s).
  { apply Game.reachable_start; [apply Game.reachable_new|].
    intros game [= <-]. reflexivity. }
  split; [exact H|].
  exact (proj2 (reachable_end_game_agrees s H 1)).
Defined.

Lemma end_game_marks_and_removes_witness :
  let create := fun g => Py.Ret {| Game.group_id := g; Game.is_active := true;
                                   Game.fields := tt |} in
  let s := snd (Game.start_game create 1 Game.new) in
  Game.reachable s /\
  Game.get_game 1 (snd (Game.end_game 1 s)) = None /\
  (Game.has_active_game 2 s = false -> Game.end_game 2 s = (false, s)).
Proof.
  intros create s.
  assert (H : Game.reachable s).
  { apply Game.reachable_start; [apply Game.reachable_new|].
    intros game [= <-]. reflexivity. }
  split; [exact H|]. split.
  - exact (proj1 (proj2 (end_game_marks_and_removes s 1 H))).
  - exact (proj1 (proj2 (proj2 (end_game_marks_and_removes s 2 H)))).
Defined.

Lemma start_game_replaces_witness :
  let game := {| Game.group_id := 1; Game.is_active := true; Game.fields := tt |} in
  let create := fun _ : Z => Py.Ret game in
  let s := snd (Game.start_game create 1 Game.new) in
  create 1%Z = Py.Ret game /\
  (forall g' ref', Game._games s !! g' = Some ref' ->
                   is_Some (Game.objects s !! ref')) /\
  exists ref, Game.get_game 1 (snd (Game.start_game create 1 s)) = Some ref /\
              forall ref0, Game._games s !! 1%Z = Some ref0 -> ref0 <> ref.
Proof.
  intros game create s.
  assert (H1 : create 1%Z = Py.Ret game) by reflexivity.
  assert (H2 : forall g' ref', Game._games s !! g' = Some ref' ->
                               is_Some (Game.objects s !! ref')).
  { assert (Hr : Game.reachable s).
    { apply Game.reachable_start; [apply Game.reachable_new|].
      intros g0 [= <-]. reflexivity. }
    intros g' ref' Hg.
    destruct (proj1 (reachable_invariant s Hr) g' ref' Hg) as (o & Ho & _).
    rewrite Ho. eauto. }
  split; [exact H1|]. split; [exact H2|].
  destruct (start_game_replaces create 1 game s H1 H2) as (ref & _ & Hg & _ & _ & Hold).
  exists ref. split; [exact Hg|]. intros ref0 Hr0. exact (proj1 (Hold ref0 Hr0)).
Defined.

Lemma start_game_failure_ends_game_witness :
  let ok := fun g => Py.Ret {| Game.group_id := g; Game.is_active := true;
                               Game.fields := tt |} in
  let failing := fun _ : Z =>
    @Py.Raise (Game.GameState unit) (Py.RuntimeError "题库为空，无法开始游戏") in
  let s := snd (Game.start_game ok 1 Game.new) in
  failing 1%Z = Py.Raise (Py.RuntimeError "题库为空，无法开始游戏") /\
  Game.has_active_game 1 s = true /\
  Game.has_active_game 1 (snd (Game.start_game failing 1 s)) = false.
Proof.
  intros ok failing s.
  assert (H : failing 1%Z = Py.Raise (Py.RuntimeError "题库为空，无法开始游戏"))
    by reflexivity.
  split; [exact H|]. split; [vm_compute; reflexivity|].
  exact (proj1 (proj2 (proj2 (proj2
           (start_game_failure_ends_game failing 1 _ s H))))).
Defined.

Lemma cooldown_remaining_agrees_witness :
  (Z.abs (Config.random_reply_cooldown Config.defaults) <= 2 ^ 53)%Z /\
  (0 <= fst (Chat.get_cooldown_remaining Py.round_double Config.defaults 20 1
               (Chat.set_cooldown 5 1 Chat.new)))%Q.
Proof.
  assert (H : (Z.abs (Config.random_reply_cooldown Config.defaults) <= 2 ^ 53)%Z)
    by (simpl; lia).
  split; [exact H|].
  exact (proj1 (cooldown_remaining_agrees Py.round_double Config.defaults 20 1
                  (Chat.set_cooldown 5 1 Chat.new) round_double_ieee H)).
Defined.

Lemma highnoon_game_length_witness :
  let s0 := snd (Game.start_game (HighNoon.create_game 3) 1 Game.new) in
  let s1 := snd (HighNoon.fires 1 [(7%Z, "a"); (8%Z, "b")] s0) in
  (1 <= 3 <= 6)%Z /\ length [(7%Z, "a"); (8%Z, "b")] = Z.to_nat (3 - 1) /\
  Game.has_active_game 1 s1 = true /\
  Game.has_active_game 1 (snd (HighNoon.fire 1 9 "c" s1)) = false.
Proof.
  intros s0 s1.
  assert (H1 : (1 <= 3 <= 6)%Z) by lia.
  assert (H2 : length [(7%Z, "a"); (8%Z, "b")] = Z.to_nat (3 - 1)) by reflexivity.
  split; [exact H1|]. split; [exact H2|].
  destruct (highnoon_game_length 3 1 [(7%Z, "a"); (8%Z, "b")] 9 10 "c" "d"
              Game.new H1 H2) as (_ & A & _ & B & _).
  split; [exact A | exact B].
Defined.

Lemma record_message_isolated_witness :
  let s' := snd (Chat.record_message (fun m => m) Config.defaults 10 1 7 "a" "hi"
                   false Chat.new) in
  (2 <> 1)%Z /\
  fst (Chat.get_messages 2 50 false s') = fst (Chat.get_messages 2 50 false Chat.new).
Proof.
  intros s'.
  assert (H : (2 <> 1)%Z) by lia.
  split; [exact H|].
  exact (proj1 (record_message_isolated Py.round_double (fun m => m)
                  Config.defaults 10 10 1 2 7 "a" "hi" false 50 false Chat.new H)).
Defined.

Lemma disabled_feature_rejected_witness :
  let plugin := {| Dispatch.feature_name := Some "math"; Dispatch._matcher := true;
                   Dispatch.handle := fun _ _ => Dispatch.ret tt;
                   Dispatch.handle_error := fun _ => Dispatch.ret tt |} in
  let event := {| Dispatch.user_id := 7; Dispatch.group_id := Some 1%Z |} in
  let cfg := {| Config.max_history_per_group := 50;
                Config.random_reply_cooldown := 30;
                Config.switches := {[ "math_enabled" := false ]} |} in
  let w := {| Dispatch.ban_service := Ban.new; Dispatch.ban_file := [];
              Dispatch.config := cfg;
              Dispatch.current_event := None; Dispatch.trace := [] |} in
  Dispatch._matcher plugin = true /\
  fst (Ban.is_banned (Dispatch.ban_file w) (Dispatch.user_id event)
         (Dispatch.ban_service w)) = false /\
  Dispatch.feature_enabled plugin (Dispatch.config w) = false /\
  fst (Dispatch.handler (fun a => a) plugin event "x" w)
    = Py.Raise Py.FinishedException.
Proof.
  intros plugin event cfg w.
  assert (Hm : Dispatch._matcher plugin = true) by reflexivity.
  assert (Hb : fst (Ban.is_banned (Dispatch.ban_file w) (Dispatch.user_id event)
                      (Dispatch.ban_service w)) = false) by (vm_compute; reflexivity).
  assert (Hf : Dispatch.feature_enabled plugin (Dispatch.config w) = false)
    by (vm_compute; reflexivity).
  split; [exact Hm|]. split; [exact Hb|]. split; [exact Hf|].
  exact (f_equal fst (disabled_feature_rejected (fun a => a) plugin event "x" w
                        Hm Hb Hf)).
Defined.

Lemma handle_errors_converted_witness :
  let plugin := {| Dispatch.feature_name := None; Dispatch._matcher := true;
                   Dispatch.handle :=
                     fun _ _ => Dispatch.raise (Py.OtherException "boom");
                   Dispatch.handle_error :=
                     fun e => Dispatch.emit (Dispatch.Sent (Py.exn_str e)) |} in
  let event := {| Dispatch.user_id := 7; Dispatch.group_id := Some 1%Z |} in
  let w := {| Dispatch.ban_service := Ban.new; Dispatch.ban_file := [];
              Dispatch.config := Config.defaults;
              Dispatch.current_event := None; Dispatch.trace := [] |} in
  let w2 := Dispatch.with_state w
              (snd (Ban.is_banned (Dispatch.ban_file w) (Dispatch.user_id event)
                      (Dispatch.ban_service w)))
              (Some event)
              ([] ++ [Dispatch.FeatureChecked; Dispatch.Handled event "x"])%list in
  fst (Ban.is_banned (Dispatch.ban_file w) (Dispatch.user_id event)
         (Dispatch.ban_service w)) = false /\
  Dispatch.feature_enabled plugin (Dispatch.config w) = true /\
  Dispatch.handle plugin event "x" w2 = (Py.Raise (Py.OtherException "boom"), w2) /\
  Py.is_exception (Py.OtherException "boom") = true /\
  Py.OtherException "boom" <> Py.FinishedException /\
  Dispatch.trace (snd (Dispatch.handler (fun a => a) plugin event "x" w)) =
    [Dispatch.FeatureChecked; Dispatch.Handled event "x"; Dispatch.Sent "boom"].
Proof.
  intros plugin event w w2.
  assert (Hb : fst (Ban.is_banned (Dispatch.ban_file w) (Dispatch.user_id event)
                      (Dispatch.ban_service w)) = false) by (vm_compute; reflexivity).
  assert (Hf : Dispatch.feature_enabled plugin (Dispatch.config w) = true)
    by reflexivity.
  assert (Hh : Dispatch.handle plugin event "x" w2
               = (Py.Raise (Py.OtherException "boom"), w2)) by reflexivity.
  assert (Hne : Py.OtherException "boom" <> Py.FinishedException) by discriminate.
  split; [exact Hb|]. split; [exact Hf|]. split; [exact Hh|].
  split; [reflexivity|]. split; [exact Hne|].
  exact (proj2 (proj1 (handle_errors_converted (fun a => a) plugin event "x"
                         (Py.OtherException "boom") w w2 Hb Hf Hh) eq_refl Hne)).
Defined.

Lemma register_same_key_ignored_witness :
  let a := {| Registry.name := "A"; Registry.description := "";
              Registry.command := Some "go"; Registry.aliases := None;
              Registry.feature_name := Some "math"; Registry.usage := "";
              Registry.is_message_plugin := false; Registry.hidden := false |} in
  let b := {| Registry.name := "B"; Registry.description := "";
              Registry.command := Some "run"; Registry.aliases := None;
              Registry.feature_name := Some "math"; Registry.usage := "";
              Registry.is_message_plugin := false; Registry.hidden := false |} in
  Registry.key_of b = Registry.key_of a /\
  Registry.register b (Registry.register a Registry.new)
    = Registry.register a Registry.new.
Proof.
  intros a b.
  assert (H : Registry.key_of b = Registry.key_of a) by reflexivity.
  split; [exact H|].
  exact (register_same_key_ignored a b Registry.new H).
Defined.

Lemma register_commands_found_witness :
  let a := {| Registry.name := "A"; Registry.description := "";
              Registry.command := Some "go"; Registry.aliases := None;
              Registry.feature_name := Some "math"; Registry.usage := "";
              Registry.is_message_plugin := false; Registry.hidden := false |} in
  let b := {| Registry.name := "B"; Registry.description := "";
              Registry.command := Some "go"; Registry.aliases := Some {[ "g" ]};
              Registry.feature_name := Some "soup"; Registry.usage := "";
              Registry.is_message_plugin := false; Registry.hidden := false |} in
  let r := Registry.register a Registry.new in
  Registry.get_plugin (Registry.key_of b) r = None /\
  Registry.key_of b <> "" /\
  Registry.command b = Some "go" /\ "go" <> "" /\
  Registry.get_plugin_by_command "go" r = Some a /\
  Registry.get_plugin_by_command "go" (Registry.register b r) = Some b.
Proof.
  intros a b r.
  assert (H1 : Registry.get_plugin (Registry.key_of b) r = None)
    by (vm_compute; reflexivity).
  assert (H2 : Registry.key_of b <> "") by (vm_compute; discriminate).
  assert (H3 : Registry.command b = Some "go") by reflexivity.
  assert (H4 : "go" <> "") by discriminate.
  split; [exact H1|]. split; [exact H2|]. split; [exact H3|]. split; [exact H4|].
  split; [vm_compute; reflexivity|].
  exact (proj1 (register_commands_found b "go" r H1 H2 H3 H4)).
Defined.
